(** * bjaus/vault: the resolution engine and the in-memory store

    A shallow embedding of [vault.go], [memory.go] and [options.go].

    - Go's [time.Time] is an integer count of nanoseconds measured from the
      zero instant, [time.Duration] an integer count of nanoseconds.
    - A Go [error] value is a small tree: the package sentinel, an error
      made by a collaborator, or an [fmt.Errorf] wrapping with [%w].
    - The [Store] and [Source] interfaces are records of state
      transformers; the methods of [*vault] run in a state monad over a
      [World] that holds what the store keeps, what the sources read, the
      system clock, the [lastRefresh] field and a log of the calls made to
      the collaborators.
    - Package keychain is embedded over the two libraries it calls,
      go-keyring and encoding/json, taken as parameters. *)

From Stdlib Require Import ZArith.
From stdpp Require Import base option list strings gmap.

Local Open Scope Z_scope.

(** ** package time *)

Definition Time : Type := Z.
Definition Duration : Type := Z.

Definition minDuration : Duration := - 2 ^ 63.
Definition maxDuration : Duration := 2 ^ 63 - 1.

(** [t.IsZero()]: [t] is the zero instant. *)
Definition IsZero (t : Time) : bool := t =? 0.

(** [t.Sub(u)]: the difference, pinned to the ends of the range of
    [Duration] when it does not fit. *)
Definition Sub (t u : Time) : Duration :=
  if t - u <? minDuration then minDuration
  else if maxDuration <? t - u then maxDuration
  else t - u.

(** ** errors *)

Inductive error : Type :=
  | ErrNotFound
      (* var ErrNotFound = errors.New("vault: not found") *)
  | ErrForeign (tag : string)
      (* an error value that belongs to a store or to a source *)
  | Errorf (format : string) (operands : list string) (cause : error).
      (* fmt.Errorf(format, operands..., cause), [cause] under the %w verb *)

#[global] Instance error_eq_dec : EqDecision error.
Proof. solve_decision. Defined.

(** [errors.Is] on a non-nil error: equal to the target, or wrapping an
    error that is. *)
Fixpoint unwraps_to (err target : error) : bool :=
  if decide (err = target) then true
  else match err with
       | Errorf _ _ cause => unwraps_to cause target
       | _ => false
       end.

(** [errors.Is(err, target)] for a non-nil [target]; [None] is Go's nil. *)
Definition errors_Is (err : option error) (target : error) : bool :=
  match err with
  | None => false
  | Some e => unwraps_to e target
  end.

(** ** Entry *)

Record Entry : Type := mkEntry {
  Key : string;
  Value : string;
  CreatedAt : Time;
  Source : string
}.

#[global] Instance Entry_eq_dec : EqDecision Entry.
Proof. solve_decision. Defined.

(** The composite literal [Entry{}]. *)
Definition Entry_zero : Entry := mkEntry "" "" 0 "".

(** ** memory.go *)

(** [memoryState.entries]: the one map every view of a store shares. *)
Abbreviation memoryState := (gmap string Entry).

(** A [*Memory] handle. Its [state] pointer is the shared [memoryState]
    that the operations below take and give back; the handle itself only
    adds the prefix. *)
Record Memory : Type := mkMemory { prefix : string }.

Definition NewMemory : Memory * memoryState := (mkMemory "", ∅).

Definition Memory_WithNamespace (m : Memory) (ns : string) : Memory :=
  mkMemory (ns +:+ "/").

Definition Memory_Get (m : Memory) (key : string) (st : memoryState)
  : (Entry * option error) * memoryState :=
  match st !! (prefix m +:+ key) with
  | None => ((Entry_zero, Some ErrNotFound), st)
  | Some e => ((e, None), st)
  end.

Definition Memory_Set (m : Memory) (entry : Entry) (st : memoryState)
  : option error * memoryState :=
  (None, <[prefix m +:+ Key entry := entry]> st).

Definition Memory_Delete (m : Memory) (key : string) (st : memoryState)
  : option error * memoryState :=
  (None, delete (prefix m +:+ key) st).

(** The test of the loop in [List]:
    [m.prefix == "" || len(k) > len(m.prefix) && k[:len(m.prefix)] == m.prefix]. *)
Definition in_scope (m : Memory) (k : string) : bool :=
  bool_decide (prefix m = "")
  || (String.length (prefix m) <? String.length k)%nat
     && bool_decide (String.substring 0 (String.length (prefix m)) k = prefix m).

(** Go ranges over a map in no fixed order; the order here is that of
    [map_to_list]. *)
Definition Memory_List (m : Memory) (st : memoryState)
  : (list Entry * option error) * memoryState :=
  ((snd <$> filter (λ kv, in_scope m (fst kv) = true) (map_to_list st), None), st).

(** ** vault.go and options.go *)

(** A call that leaves the engine, with what it returned. [CallFetch i] is
    the call of [Fetch] on the source at position [i] of [v.sources]. *)
Inductive Call : Type :=
  | CallGet (key : string) (res : Entry * option error)
  | CallSet (entry : Entry) (res : option error)
  | CallDelete (key : string) (res : option error)
  | CallList (res : list Entry * option error)
  | CallFetch (i : nat) (res : list Entry * option error).

Section Engine.

(** [St] is what the configured store keeps, [Ext] the external systems
    the sources read. *)
Context {St Ext : Type}.

(** The [Store] interface. *)
Record Store : Type := mkStore {
  store_Get : string → St → (Entry * option error) * St;
  store_Set : Entry → St → option error * St;
  store_Delete : string → St → option error * St;
  store_List : St → (list Entry * option error) * St
}.

(** A store value as an option receives it: its [Store] methods and,
    when its dynamic type also implements [Namespaced], its
    [WithNamespace] method. *)
Record StoreValue : Type := mkStoreValue {
  methods : Store;
  asNamespaced : option (string → Store)
}.

(** The [Source] interface, through its adapter [SourceFunc]. *)
Definition SourceFunc : Type := Ext → (list Entry * option error) * Ext.

Definition Fetch (f : SourceFunc) : Ext → (list Entry * option error) * Ext := f.

(** Everything a method of [*vault] can read or change. The system clock
    is the sequence of its successive readings, none of which is the
    zero instant; [ticks] counts the readings taken. [lastRefresh] is
    the field of that name, the only field of the struct that changes
    after [New]. [calls] logs the calls made to the store and to the
    sources, oldest first. *)
Record World : Type := mkWorld {
  backing : St;
  remote : Ext;
  clock : nat → positive;
  ticks : nat;
  lastRefresh : Time;
  calls : list Call
}.

Definition M (A : Type) : Type := World → A * World.

#[local] Instance M_ret : MRet M := λ A x w, (x, w).
#[local] Instance M_bind : MBind M :=
  λ A B f m w, let '(a, w') := m w in f a w'.

(** [time.Now()]. *)
Definition time_Now : M Time := λ w,
  (Z.pos (clock w (ticks w)),
   mkWorld (backing w) (remote w) (clock w) (S (ticks w)) (lastRefresh w) (calls w)).

(** [time.Since(t)] is [time.Now().Sub(t)]. *)
Definition time_Since (t : Time) : M Duration :=
  now ← time_Now; mret (Sub now t).

Definition get_lastRefresh : M Time := λ w, (lastRefresh w, w).

Definition set_lastRefresh (t : Time) : M unit := λ w,
  (tt, mkWorld (backing w) (remote w) (clock w) (ticks w) t (calls w)).

(** Running a method of the store, or [Fetch] of a source, on its part
    of the world, and logging the call. *)
Definition on_store {A : Type} (c : A → Call) (op : St → A * St) : M A := λ w,
  let '(a, st) := op (backing w) in
  (a, mkWorld st (remote w) (clock w) (ticks w) (lastRefresh w) (calls w ++ [c a])).

Definition on_source {A : Type} (c : A → Call) (op : Ext → A * Ext) : M A := λ w,
  let '(a, x) := op (remote w) in
  (a, mkWorld (backing w) x (clock w) (ticks w) (lastRefresh w) (calls w ++ [c a])).

(** options.go *)

Record config : Type := mkConfig {
  cfg_store : StoreValue;
  cfg_sources : list SourceFunc;
  cfg_namespace : string;
  cfg_ttl : Duration
}.

Definition Option : Type := config → config.

Definition WithStore (s : StoreValue) : Option := λ c,
  mkConfig s (cfg_sources c) (cfg_namespace c) (cfg_ttl c).

Definition WithSource (s : SourceFunc) : Option := λ c,
  mkConfig (cfg_store c) (cfg_sources c ++ [s]) (cfg_namespace c) (cfg_ttl c).

Definition WithNamespace (ns : string) : Option := λ c,
  mkConfig (cfg_store c) (cfg_sources c) ns (cfg_ttl c).

Definition WithTTL (d : Duration) : Option := λ c,
  mkConfig (cfg_store c) (cfg_sources c) (cfg_namespace c) d.

(** The fields of [vault] that [New] fixes. *)
Record vault : Type := mkVault {
  store : Store;
  sources : list SourceFunc;
  ttl : Duration
}.

(** [New]. [default_store] stands for the [NewMemory()] of its first
    statement (see [vault_New] below). *)
Definition New (default_store : StoreValue) (opts : list Option) : vault :=
  let cfg := fold_left (λ c opt, opt c) opts (mkConfig default_store [] "" 0) in
  let store :=
    if decide (cfg_namespace cfg = "") then methods (cfg_store cfg)
    else match asNamespaced (cfg_store cfg) with
         | Some withNamespace => withNamespace (cfg_namespace cfg)
         | None => methods (cfg_store cfg)
         end in
  mkVault store (cfg_sources cfg) (cfg_ttl cfg).

(** vault.go *)

Definition expired (v : vault) (e : Entry) : M bool :=
  if ttl v <=? 0 then mret false
  else d ← time_Since (CreatedAt e); mret (ttl v <? d).

Definition shouldAutoRefresh (v : vault) : M bool :=
  if (length (sources v) =? 0)%nat then mret false
  else
    last ← get_lastRefresh;
    if IsZero last then mret true
    else if 0 <? ttl v then d ← time_Since last; mret (ttl v <? d)
    else mret false.

Definition with_CreatedAt (e : Entry) (t : Time) : Entry :=
  mkEntry (Key e) (Value e) t (Source e).

Definition with_Source (e : Entry) (s : string) : Entry :=
  mkEntry (Key e) (Value e) (CreatedAt e) s.

(** The inner loop of [Refresh]: [for _, e := range entries]. *)
Fixpoint Refresh_entries (v : vault) (now : Time) (entries : list Entry)
  : M (option error) :=
  match entries with
  | [] => mret None
  | e :: rest =>
      let e := with_CreatedAt e now in
      serr ← on_store (CallSet e) (store_Set (store v) e);
      match serr with
      | Some cause =>
          mret (Some (Errorf "vault: refresh: set %q: %w" [Key e] cause))
      | None => Refresh_entries v now rest
      end
  end.

(** The outer loop of [Refresh]: [for _, src := range v.sources], with
    the position [i] of [src] kept for the log. *)
Fixpoint Refresh_sources (v : vault) (now : Time) (i : nat)
    (srcs : list SourceFunc) : M (option error) :=
  match srcs with
  | [] => mret None
  | src :: rest =>
      '(entries, err) ← on_source (CallFetch i) (Fetch src);
      match err with
      | Some cause => mret (Some (Errorf "vault: refresh: %w" [] cause))
      | None =>
          serr ← Refresh_entries v now entries;
          match serr with
          | Some _ => mret serr
          | None => Refresh_sources v now (S i) rest
          end
      end
  end.

Definition Refresh (v : vault) : M (option error) :=
  now ← time_Now;
  err ← Refresh_sources v now 0%nat (sources v);
  match err with
  | Some _ => mret err
  | None => _ ← set_lastRefresh now; mret None
  end.

Definition Get (v : vault) (key : string) : M (Entry * option error) :=
  '(e, err) ← on_store (CallGet key) (store_Get (store v) key);
  fresh ← match err with
          | None => b ← expired v e; mret (negb b)
          | Some _ => mret false
          end;
  if fresh : bool then mret (e, None)
  else
    miss ← (if errors_Is err ErrNotFound then mret true
            else match err with
                 | None => expired v e
                 | Some _ => mret false
                 end);
    if negb miss then mret (Entry_zero, err)
    else
      go ← shouldAutoRefresh v;
      if negb go then mret (Entry_zero, Some ErrNotFound)
      else
        rerr ← Refresh v;
        match rerr with
        | Some _ => mret (Entry_zero, rerr)
        | None => on_store (CallGet key) (store_Get (store v) key)
        end.

(** [Set]; the bare name is a keyword here. *)
Definition vault_Set (v : vault) (entry : Entry) : M (option error) :=
  entry ← (if IsZero (CreatedAt entry)
           then now ← time_Now; mret (with_CreatedAt entry now)
           else mret entry);
  let entry := if decide (Source entry = "") then with_Source entry "manual"
               else entry in
  on_store (CallSet entry) (store_Set (store v) entry).

Definition Delete (v : vault) (key : string) : M (option error) :=
  on_store (CallDelete key) (store_Delete (store v) key).

Definition List (v : vault) : M (list Entry * option error) :=
  on_store CallList (store_List (store v)).

End Engine.

Arguments Store : clear implicits.
Arguments StoreValue : clear implicits.
Arguments SourceFunc : clear implicits.
Arguments World : clear implicits.
Arguments M : clear implicits.
Arguments config : clear implicits.
Arguments Option : clear implicits.
Arguments vault : clear implicits.

(** ** [*Memory] as a [Store] and as a [Namespaced] *)

Definition Memory_Store (m : Memory) : Store memoryState :=
  mkStore (Memory_Get m) (Memory_Set m) (Memory_Delete m) (Memory_List m).

Definition Memory_StoreValue (m : Memory) : StoreValue memoryState :=
  mkStoreValue (Memory_Store m)
               (Some (λ ns, Memory_Store (Memory_WithNamespace m ns))).

(** [New] with its default store, the handle of [NewMemory()]; the map of
    that new store is empty in the world the vault starts in. *)
Definition vault_New {Ext : Type} (opts : list (Option memoryState Ext))
  : vault memoryState Ext :=
  New (Memory_StoreValue (fst NewMemory)) opts.

(** ** keychain: the store over the system keyring

    Package keychain calls two libraries: go-keyring for the secrets and
    encoding/json for their text. Both are parameters here: a [Keyring]
    is what the three functions of go-keyring do to the state [K] of the
    system keyring, a [Json] what [json.Marshal] and [json.Unmarshal] do
    at the two types the package uses them at. *)

Definition defaultService : string := "vault".
Definition indexKey : string := "__vault_index__".

(** [keyring.ErrNotFound]. *)
Definition keyring_ErrNotFound : error :=
  ErrForeign "secret not found in keyring".

Section Keychain.

Context {K : Type}.

Record Keyring : Type := mkKeyring {
  keyring_Get : string → string → K → (string * option error) * K;
  keyring_Set : string → string → string → K → option error * K;
  keyring_Delete : string → string → K → option error * K
}.

(** [Unmarshal_Entry data] is the entry [json.Unmarshal(data, &entry)]
    leaves in a zero [entry], with the error it returns; likewise
    [Unmarshal_keys] for a nil [[]string]. *)
Record Json : Type := mkJson {
  Marshal_Entry : Entry → string * option error;
  Unmarshal_Entry : string → Entry * option error;
  Marshal_keys : list string → string * option error;
  Unmarshal_keys : string → list string * option error
}.

(** [keychain.Store]. *)
Record Keychain : Type := mkKeychain { service : string }.

Definition WithService (name : string) : Keychain → Keychain :=
  λ _, mkKeychain name.

Definition Keychain_New (opts : list (Keychain → Keychain)) : Keychain :=
  fold_left (λ s opt, opt s) opts (mkKeychain defaultService).

Definition Keychain_WithNamespace (s : Keychain) (ns : string) : Keychain :=
  mkKeychain ((service s +:+ "/") +:+ ns).

Variable kr : Keyring.
Variable json : Json.

Definition KM (A : Type) : Type := K → A * K.

#[local] Instance KM_ret : MRet KM := λ A x k, (x, k).
#[local] Instance KM_bind : MBind KM :=
  λ A B f m k, let '(a, k') := m k in f a k'.

Definition Keychain_Get (s : Keychain) (key : string)
  : KM (Entry * option error) :=
  '(data, err) ← keyring_Get kr (service s) key;
  match err with
  | Some cause =>
      if errors_Is err keyring_ErrNotFound
      then mret (Entry_zero, Some ErrNotFound)
      else mret (Entry_zero, Some (Errorf "keychain: get %q: %w" [key] cause))
  | None =>
      let '(entry, uerr) := Unmarshal_Entry json data in
      match uerr with
      | Some cause =>
          mret (Entry_zero,
                Some (Errorf "keychain: unmarshal %q: %w" [key] cause))
      | None => mret (entry, None)
      end
  end.

(** [readIndex]: no index on any error of the keyring; the error of
    [json.Unmarshal] is dropped and what it has decoded is kept. *)
Definition readIndex (s : Keychain) : KM (list string) :=
  '(data, err) ← keyring_Get kr (service s) indexKey;
  match err with
  | Some _ => mret []
  | None => mret (fst (Unmarshal_keys json data))
  end.

Definition writeIndex (s : Keychain) (keys : list string)
  : KM (option error) :=
  let '(data, err) := Marshal_keys json keys in
  match err with
  | Some cause => mret (Some (Errorf "keychain: index marshal: %w" [] cause))
  | None =>
      serr ← keyring_Set kr (service s) indexKey data;
      match serr with
      | Some cause =>
          mret (Some (Errorf "keychain: index write: %w" [] cause))
      | None => mret None
      end
  end.

(** The loop of [addToIndex]: [for _, k := range keys { if k == key ... }]. *)
Fixpoint indexed (key : string) (keys : list string) : bool :=
  match keys with
  | [] => false
  | k :: rest => if decide (k = key) then true else indexed key rest
  end.

Definition addToIndex (s : Keychain) (key : string) : KM (option error) :=
  keys ← readIndex s;
  if indexed key keys then mret None
  else writeIndex s (keys ++ [key]).

(** The loop of [removeFromIndex] keeps the keys that differ from [key]. *)
Definition removeFromIndex (s : Keychain) (key : string)
  : KM (option error) :=
  keys ← readIndex s;
  writeIndex s (filter (λ k, k ≠ key) keys).

Definition Keychain_Set (s : Keychain) (entry : Entry) : KM (option error) :=
  let '(data, err) := Marshal_Entry json entry in
  match err with
  | Some cause =>
      mret (Some (Errorf "keychain: marshal %q: %w" [Key entry] cause))
  | None =>
      serr ← keyring_Set kr (service s) (Key entry) data;
      match serr with
      | Some cause =>
          mret (Some (Errorf "keychain: set %q: %w" [Key entry] cause))
      | None => addToIndex s (Key entry)
      end
  end.

Definition Keychain_Delete (s : Keychain) (key : string)
  : KM (option error) :=
  err ← keyring_Delete kr (service s) key;
  match err with
  | Some cause =>
      if errors_Is err keyring_ErrNotFound then removeFromIndex s key
      else mret (Some (Errorf "keychain: delete %q: %w" [key] cause))
  | None => removeFromIndex s key
  end.

(** The loop of [List], with the entries gathered so far. *)
Fixpoint Keychain_List_loop (s : Keychain) (keys : list string)
    (entries : list Entry) : KM (list Entry * option error) :=
  match keys with
  | [] => mret (entries, None)
  | key :: rest =>
      '(e, err) ← Keychain_Get s key;
      if errors_Is err ErrNotFound then Keychain_List_loop s rest entries
      else match err with
           | Some _ => mret ([], err)
           | None => Keychain_List_loop s rest (entries ++ [e])
           end
  end.

Definition Keychain_List (s : Keychain) : KM (list Entry * option error) :=
  keys ← readIndex s;
  Keychain_List_loop s keys [].

(** [*keychain.Store] as a [Store] and as a [Namespaced]. *)
Definition Keychain_Store (s : Keychain) : Store K :=
  mkStore (Keychain_Get s) (Keychain_Set s) (Keychain_Delete s)
          (Keychain_List s).

Definition Keychain_StoreValue (s : Keychain) : StoreValue K :=
  mkStoreValue (Keychain_Store s)
               (Some (λ ns, Keychain_Store (Keychain_WithNamespace s ns))).

(** A keyring that keeps secrets as a map from service and user does: a
    read changes nothing; a secret set is the secret read; a secret
    deleted, or found missing by [Delete], is read as
    [keyring.ErrNotFound]; a write or a delete leaves the other secrets
    as they were. *)
Record keyring_lawful : Prop := {
  Get_pure : ∀ sv u k, snd (keyring_Get kr sv u k) = k;
  Get_Set : ∀ sv u p k,
    fst (keyring_Set kr sv u p k) = None →
    fst (keyring_Get kr sv u (snd (keyring_Set kr sv u p k))) = (p, None);
  Get_Set_other : ∀ sv u p sv' u' k,
    (sv, u) ≠ (sv', u') →
    fst (keyring_Get kr sv' u' (snd (keyring_Set kr sv u p k)))
    = fst (keyring_Get kr sv' u' k);
  Get_Delete : ∀ sv u k,
    (fst (keyring_Delete kr sv u k) = None
     ∨ errors_Is (fst (keyring_Delete kr sv u k)) keyring_ErrNotFound = true) →
    errors_Is (snd (fst (keyring_Get kr sv u
                           (snd (keyring_Delete kr sv u k)))))
              keyring_ErrNotFound = true;
  Get_Delete_other : ∀ sv u sv' u' k,
    (sv, u) ≠ (sv', u') →
    fst (keyring_Get kr sv' u' (snd (keyring_Delete kr sv u k)))
    = fst (keyring_Get kr sv' u' k)
}.

(** What [json.Marshal] has written, [json.Unmarshal] reads back. Of
    encoding/json this is so for strings that are valid UTF-8, and so
    for every list of keys that [json.Unmarshal] has decoded; see
    [json_text_lawful] for the law with that condition spelled out. *)
Record json_lawful : Prop := {
  Entry_roundtrip : ∀ e data,
    Marshal_Entry json e = (data, None) →
    Unmarshal_Entry json data = (e, None);
  keys_roundtrip : ∀ keys data,
    Marshal_keys json keys = (data, None) →
    Unmarshal_keys json data = (keys, None)
}.

End Keychain.

Arguments Keyring : clear implicits.
Arguments KM : clear implicits.

(** The entry [Get] finds under a key, if it finds one. *)
Definition Keychain_found {K : Type} (kr : Keyring K) (json : Json)
    (s : Keychain) (k : K) (key : string) : option Entry :=
  match fst (Keychain_Get kr json s key k) with
  | (e, None) => Some e
  | (_, Some _) => None
  end.

(** *** What encoding/json promises on text

    [json.Marshal] writes a string that is valid UTF-8 so that
    [json.Unmarshal] reads it back byte for byte; a byte that is not part
    of valid UTF-8 it replaces by U+FFFD, so for such strings nothing is
    promised. [utf8_ValidString] is [utf8.ValidString] of package
    unicode/utf8 on the bytes of a string: in [utf8_from], [need] bytes
    of the current character are still to come, and the next of them has
    to lie between [lo] and [hi]. *)
Fixpoint utf8_from (need lo hi : nat) (s : string) : bool :=
  match s with
  | EmptyString => (need =? 0)%nat
  | String c rest =>
      let b := Ascii.nat_of_ascii c in
      match need with
      | O =>
          if (b <? 128)%nat then utf8_from 0 128 191 rest
          else if (194 <=? b)%nat && (b <=? 223)%nat
               then utf8_from 1 128 191 rest
          else if (b =? 224)%nat then utf8_from 2 160 191 rest
          else if (b =? 237)%nat then utf8_from 2 128 159 rest
          else if (225 <=? b)%nat && (b <=? 239)%nat
               then utf8_from 2 128 191 rest
          else if (b =? 240)%nat then utf8_from 3 144 191 rest
          else if (b =? 244)%nat then utf8_from 3 128 143 rest
          else if (241 <=? b)%nat && (b <=? 243)%nat
               then utf8_from 3 128 191 rest
          else false
      | S need' =>
          if (lo <=? b)%nat && (b <=? hi)%nat
          then utf8_from need' 128 191 rest
          else false
      end
  end.

Definition utf8_ValidString (s : string) : bool := utf8_from 0 128 191 s.

(** What [json.Marshal] has written of an entry, or of a list of keys,
    whose strings are valid UTF-8, [json.Unmarshal] reads back. *)
Record json_text_lawful (json : Json) : Prop := {
  Entry_text_roundtrip : ∀ e data,
    utf8_ValidString (Key e) = true →
    utf8_ValidString (Value e) = true →
    utf8_ValidString (Source e) = true →
    Marshal_Entry json e = (data, None) →
    Unmarshal_Entry json data = (e, None);
  keys_text_roundtrip : ∀ keys data,
    Forall (λ key, utf8_ValidString key = true) keys →
    Marshal_keys json keys = (data, None) →
    Unmarshal_keys json data = (keys, None)
}.

(** *** Stand-ins for the two libraries

    The mock provider of go-keyring, which the tests of the package
    install with [keyring.MockInit()]: a map from service and user to
    secret. *)
Definition mock_keyring : Keyring (gmap (string * string) string) :=
  mkKeyring
    (λ sv u k, match k !! (sv, u) with
               | Some p => ((p, None), k)
               | None => (("", Some keyring_ErrNotFound), k)
               end)
    (λ sv u p k, (None, <[(sv, u) := p]> k))
    (λ sv u k, match k !! (sv, u) with
               | Some _ => (None, delete (sv, u) k)
               | None => (Some keyring_ErrNotFound, k)
               end).

(** A text format to run the package on, in place of JSON: a string is
    written with "1" ahead of each of its characters and "0" after the
    last, a list of strings as its strings one after the other, an
    integer as its sign and as many "x" as its magnitude. *)
Fixpoint frame (s : string) : string :=
  match s with
  | EmptyString => "0"
  | String c rest => "1" +:+ String c (frame rest)
  end.

Fixpoint frames (l : list string) : string :=
  match l with
  | [] => ""
  | s :: rest => frame s +:+ frames rest
  end.

Fixpoint unframes (input cur : string) : option (list string) :=
  match input with
  | EmptyString => if decide (cur = "") then Some [] else None
  | String c rest =>
      if decide (String c "" = "0") then (cur ::.) <$> unframes rest ""
      else match rest with
           | EmptyString => None
           | String c' rest' => unframes rest' (cur +:+ String c' "")
           end
  end.

Fixpoint tally (n : nat) : string :=
  match n with
  | O => ""
  | S n => "x" +:+ tally n
  end.

Definition frame_Z (z : Z) : string :=
  (if z <? 0 then "-" else "+") +:+ tally (Z.abs_nat z).

Definition unframe_Z (s : string) : Z :=
  match s with
  | EmptyString => 0
  | String c rest =>
      if decide (String c "" = "-") then - Z.of_nat (String.length rest)
      else Z.of_nat (String.length rest)
  end.

Definition errSyntax : error := ErrForeign "unexpected end of input".

Definition toy_json : Json :=
  mkJson
    (λ e, (frames [Key e; Value e; frame_Z (CreatedAt e); Source e], None))
    (λ data, match unframes data "" with
             | Some [k; v; t; s] => (mkEntry k v (unframe_Z t) s, None)
             | _ => (Entry_zero, Some errSyntax)
             end)
    (λ keys, (frames keys, None))
    (λ data, match unframes data "" with
             | Some keys => (keys, None)
             | None => ([], Some errSyntax)
             end).

(** A second text format, which like JSON tells the text of an entry (an
    object, opened by "{") from the text of a list of keys (an array,
    opened by "["): decoding the one as the other fails with a type
    error and decodes nothing, as [json.Unmarshal] does. *)
Definition errObject : error :=
  ErrForeign "json: cannot unmarshal object into Go value of type []string".
Definition errArray : error :=
  ErrForeign "json: cannot unmarshal array into Go value of type vault.Entry".

Definition tagged_json : Json :=
  mkJson
    (λ e, ("{" +:+ frames [Key e; Value e; frame_Z (CreatedAt e); Source e],
           None))
    (λ data, match data with
             | EmptyString => (Entry_zero, Some errSyntax)
             | String c rest =>
                 if decide (String c "" = "{") then
                   match unframes rest "" with
                   | Some [k; v; t; s] => (mkEntry k v (unframe_Z t) s, None)
                   | _ => (Entry_zero, Some errSyntax)
                   end
                 else if decide (String c "" = "[")
                      then (Entry_zero, Some errArray)
                 else (Entry_zero, Some errSyntax)
             end)
    (λ keys, ("[" +:+ frames keys, None))
    (λ data, match data with
             | EmptyString => ([], Some errSyntax)
             | String c rest =>
                 if decide (String c "" = "[") then
                   match unframes rest "" with
                   | Some keys => (keys, None)
                   | None => ([], Some errSyntax)
                   end
                 else if decide (String c "" = "{")
                      then ([], Some errObject)
                 else ([], Some errSyntax)
             end).

(** ** Collaborators of the test files *)

(** [failStore] of the vault tests: a store whose [Get] always fails. *)
Definition failStore {St : Type} (err : error) : Store St :=
  mkStore (λ _ st, ((Entry_zero, Some err), st))
          (λ _ st, (None, st))
          (λ _ st, (None, st))
          (λ st, (([], None), st)).

(** The sources of the tests are closures over a call counter: the
    external state is that counter. *)
Definition counting_source (entries : list Entry) : SourceFunc nat :=
  λ n, ((entries, None), S n).

Definition failing_source (err : error) : SourceFunc nat :=
  λ n, (([], Some err), S n).

(** A clock that reads the given instants one after the other. *)
Definition clock_of (readings : list positive) : nat → positive :=
  λ n, nth n readings 1%positive.

(** The world right after [New]: an empty default store, no fetch made,
    no clock reading taken, [lastRefresh] the zero instant. *)
Definition World_init (readings : list positive) : World memoryState nat :=
  mkWorld ∅ 0%nat (clock_of readings) 0 0 [].

(** The system clock does not run backwards. *)
Definition clock_monotone {St Ext : Type} (w : World St Ext) : Prop :=
  ∀ i j : nat, (i ≤ j)%nat → (clock w i ≤ clock w j)%positive.

(** ** Scenarios *)

Definition errBroken : error := ErrForeign "store is broken".
Definition errFetch : error := ErrForeign "network down".

(** A vault over a store whose [Get] always fails with [errBroken], as in
    [TestGet_storeError_propagated]. *)
Definition broken_vault : vault memoryState nat :=
  vault_New [WithStore (mkStoreValue (failStore errBroken) None)].

(** A vault with a TTL below zero and no source, and the world after one
    [Set] at instant 100; the next reading of the clock is 200. *)
Definition negative_ttl_vault : vault memoryState nat :=
  vault_New [WithTTL (-1)].

Definition negative_ttl_world : World memoryState nat :=
  snd (vault_Set negative_ttl_vault (mkEntry "k" "v" 0 "")
                 (World_init [100; 200]%positive)).

(** A vault with a TTL of 50 and no source, and the world after one [Set]
    at instant 100; the next reading of the clock is 120. *)
Definition young_vault : vault memoryState nat := vault_New [WithTTL 50].

Definition young_world : World memoryState nat :=
  snd (vault_Set young_vault (mkEntry "k" "v" 0 "")
                 (World_init [100; 120]%positive)).

(** A vault with a TTL of 10 whose one source supplies key "j" only; the
    world after a [Set] of key "k" at instant 100. The clock then reads
    500, 501 and 502. *)
Definition stale_vault : vault memoryState nat :=
  vault_New [WithSource (counting_source [mkEntry "j" "fresh" 0 "src"]);
             WithTTL 10].

Definition stale_world : World memoryState nat :=
  snd (vault_Set stale_vault (mkEntry "k" "old" 0 "")
                 (World_init [100; 500; 501; 502]%positive)).

(** The same vault; the world after a [Set] of key "k" at instant 100 and
    a [Refresh] at instant 500. The clock then reads 505, 506 and 507. *)
Definition throttled_world : World memoryState nat :=
  snd (Refresh stale_vault
         (snd (vault_Set stale_vault (mkEntry "k" "old" 0 "")
                         (World_init [100; 500; 505; 506; 507]%positive)))).

(** A vault with one source and no TTL, and the world after one [Refresh]
    at instant 100. *)
Definition once_vault : vault memoryState nat :=
  vault_New [WithSource (counting_source [mkEntry "exists" "yes" 0 "src"])].

Definition once_world : World memoryState nat :=
  snd (Refresh once_vault (World_init [100; 200; 300]%positive)).

(** A vault with a TTL of 10 whose one source is down, and the world
    after a [Set] of key "k" at instant 100. *)
Definition down_vault : vault memoryState nat :=
  vault_New [WithSource (failing_source errFetch); WithTTL 10].

Definition down_world : World memoryState nat :=
  snd (vault_Set down_vault (mkEntry "k" "old" 0 "")
                 (World_init [100; 500; 501; 502]%positive)).

(** A vault with a TTL of 10 and no source, and the world after a [Set]
    of key "k" with the explicit [CreatedAt] 100, which reads no clock.
    The wall clock then reads 500 and, set back in between, 105. *)
Definition stepback_vault : vault memoryState nat := vault_New [WithTTL 10].

Definition stepback_world : World memoryState nat :=
  snd (vault_Set stepback_vault (mkEntry "k" "old" 100 "")
                 (World_init [500; 105]%positive)).

(** Sources A and B, registered in this order, both supply key "k". *)
Definition overwrite_vault : vault memoryState nat :=
  vault_New [WithSource (counting_source [mkEntry "k" "from-A" 0 "A"]);
             WithSource (counting_source [mkEntry "k" "from-B" 7 "B"])].

(** Three sources, the second of which fails. *)
Definition partial_vault : vault memoryState nat :=
  vault_New [WithSource (counting_source [mkEntry "a" "1" 0 "first"]);
             WithSource (failing_source errFetch);
             WithSource (counting_source [mkEntry "c" "3" 0 "third"])].

(** The store of the keychain tests, and a keyring in which the index of
    that store lists a key whose secret is gone. *)
Definition test_keychain : Keychain := Keychain_New [WithService "test"].

Definition stale_index_keyring : gmap (string * string) string :=
  snd (keyring_Delete mock_keyring "test" "a"
         (snd (Keychain_Set mock_keyring toy_json test_keychain
                 (mkEntry "b" "2" 7 "seed")
                 (snd (Keychain_Set mock_keyring toy_json test_keychain
                         (mkEntry "a" "1" 7 "seed") ∅))))).

(** ** The shape of the call log of [Refresh]

    What [Refresh], started at the instant [now], logs while all goes
    well: for the source at position [i], its [Fetch] and then one [Set]
    per fetched entry, in the order fetched, each stamped with [now]. *)

Definition log_writes (now : Time) (entries : list Entry) : list Call :=
  (λ e, CallSet (with_CreatedAt e now) None) <$> entries.

Fixpoint log_sources (now : Time) (i : nat) (fetched : list (list Entry))
  : list Call :=
  match fetched with
  | [] => []
  | entries :: rest =>
      CallFetch i (entries, None) :: log_writes now entries
        ++ log_sources now (S i) rest
  end.

(** The end of the log when the source at position [i] makes [Refresh]
    fail with [err]: either its [Fetch] returned [cause], or its [Fetch]
    went well and, after the entries [done] were written, the [Set] of the
    next entry returned [cause]. *)
Definition failing_tail (now : Time) (i : nat) (tail : list Call)
    (err cause : error) : Prop :=
  (∃ entries,
      tail = [CallFetch i (entries, Some cause)]
      ∧ err = Errorf "vault: refresh: %w" [] cause)
  ∨ (∃ done e rest,
      tail = CallFetch i (done ++ e :: rest, None) :: log_writes now done
               ++ [CallSet (with_CreatedAt e now) (Some cause)]
      ∧ err = Errorf "vault: refresh: set %q: %w" [Key e] cause).

(** The state a store is in after the writes of a log, applied in the
    order logged. *)
Definition replay_writes {St : Type} (s : Store St) (log : list Call) (st : St)
  : St :=
  fold_left (λ st c, match c with
                     | CallSet e _ => snd (store_Set s e st)
                     | _ => st
                     end) log st.

(** ** What the sources return, and a log checked against the collaborators *)

(** The sources of a list fetched one after the other, each in the state
    of the external systems its predecessor left: what each [Fetch]
    returned, and the external state after the last. *)
Fixpoint run_fetches {Ext : Type} (srcs : list (SourceFunc Ext)) (x : Ext)
  : list (list Entry * option error) * Ext :=
  match srcs with
  | [] => ([], x)
  | src :: rest =>
      let '(res, x1) := Fetch src x in
      let '(ress, x2) := run_fetches rest x1 in
      (res :: ress, x2)
  end.

(** A log replayed on a store [s] and sources [srcs], from the states [st]
    and [x]: every logged call is made again, [CallFetch i] on the source
    at position [i] of [srcs], and has to return what the log says it
    returned. The result is the pair of states after the last call, or
    [None] when a call of the log names no source or returns something
    else than logged. *)
Fixpoint replay_log {St Ext : Type} (s : Store St)
    (srcs : list (SourceFunc Ext)) (log : list Call) (st : St) (x : Ext)
  : option (St * Ext) :=
  match log with
  | [] => Some (st, x)
  | CallGet key res :: rest =>
      let '(r, st') := store_Get s key st in
      if decide (r = res) then replay_log s srcs rest st' x else None
  | CallSet entry res :: rest =>
      let '(r, st') := store_Set s entry st in
      if decide (r = res) then replay_log s srcs rest st' x else None
  | CallDelete key res :: rest =>
      let '(r, st') := store_Delete s key st in
      if decide (r = res) then replay_log s srcs rest st' x else None
  | CallList res :: rest =>
      let '(r, st') := store_List s st in
      if decide (r = res) then replay_log s srcs rest st' x else None
  | CallFetch i res :: rest =>
      match srcs !! i with
      | Some src =>
          let '(r, x') := Fetch src x in
          if decide (r = res) then replay_log s srcs rest st x' else None
      | None => None
      end
  end.

(** ** Namespace names *)

(** A name with no separator in it. *)
Fixpoint separator_free (ns : string) : bool :=
  match ns with
  | EmptyString => true
  | String c rest => negb (bool_decide (String c "" = "/")) && separator_free rest
  end.

(** ** Callers *)

(** One call of a caller that never asks for a refresh itself. *)
Inductive Op : Type :=
  | OpGet (key : string)
  | OpSet (entry : Entry)
  | OpDelete (key : string)
  | OpList.

(** The world after one such call on [v], and after a sequence of them. *)
Definition run_Op {St Ext : Type} (v : vault St Ext) (w : World St Ext)
    (op : Op) : World St Ext :=
  match op with
  | OpGet key => snd (Get v key w)
  | OpSet entry => snd (vault_Set v entry w)
  | OpDelete key => snd (Delete v key w)
  | OpList => snd (List v w)
  end.

Definition run_Ops {St Ext : Type} (v : vault St Ext) (ops : list Op)
    (w : World St Ext) : World St Ext :=
  fold_left (run_Op v) ops w.

(** The entry [Set] hands to the store for [entry] when the clock reads
    [now]. *)
Definition Set_stored (now : Time) (entry : Entry) : Entry :=
  let entry := if IsZero (CreatedAt entry) then with_CreatedAt entry now
               else entry in
  if decide (Source entry = "") then with_Source entry "manual" else entry.

(** An option that leaves the store of the configuration alone. *)
Definition keeps_store {St Ext : Type} (o : Option St Ext) : Prop :=
  ∀ c, cfg_store (o c) = cfg_store c.

(** ** Tactics *)

(** Unfolding the monad of the engine. *)
Ltac run :=
  unfold time_Since, time_Now, get_lastRefresh, set_lastRefresh,
         on_store, on_source, Fetch, mbind, M_bind, mret, M_ret in *;
  cbn beta iota zeta in *.

(** Unfolding the monad of package keychain. *)
Ltac krun :=
  unfold mbind, KM_bind, mret, KM_ret in *; cbn beta iota zeta in *.

(** * Facts *)

(** ** Strings *)

Lemma String_length_app (s t : string) :
  String.length (s +:+ t) = (String.length s + String.length t)%nat.
Proof. induction s as [|a s IH]; simpl; [done | by rewrite IH]. Qed.

Lemma String_app_inj_r (t s1 s2 : string) : s1 +:+ t = s2 +:+ t → s1 = s2.
Proof.
  revert s2. induction s1 as [|a s1 IH]; intros [|b s2] H.
  - done.
  - apply (f_equal String.length) in H.
    rewrite (String_length_app "" t), (String_length_app (String b s2) t) in H.
    simpl in H. lia.
  - apply (f_equal String.length) in H.
    rewrite (String_length_app "" t), (String_length_app (String a s1) t) in H.
    simpl in H. lia.
  - simpl in H. injection H as -> H. f_equal. by apply IH.
Qed.

(** Two namespaces give one key the same slot only when they are the same
    namespace. *)
Lemma namespace_slot_inj (m : Memory) (A B key : string) :
  prefix (Memory_WithNamespace m A) +:+ key
  = prefix (Memory_WithNamespace m B) +:+ key →
  A = B.
Proof.
  simpl. intros H. apply String_app_inj_r in H. by apply String_app_inj_r in H.
Qed.

(** The slot of a key under a namespace is never its unscoped slot. *)
Lemma namespace_slot_scoped (m : Memory) (A key : string) :
  prefix (Memory_WithNamespace m A) +:+ key ≠ key.
Proof.
  simpl. intros H. apply (f_equal String.length) in H.
  rewrite (String_length_app (A +:+ "/") key), (String_length_app A "/") in H.
  simpl in H. lia.
Qed.

(** ** memory.go *)

Lemma Memory_Get_Set_same (m : Memory) (entry : Entry) (st : memoryState) :
  fst (Memory_Get m (Key entry) (snd (Memory_Set m entry st))) = (entry, None).
Proof. unfold Memory_Get, Memory_Set. simpl. by rewrite lookup_insert_eq. Qed.

(** A write through one handle leaves a read through another as it was,
    when the two slots differ. *)
Lemma Memory_Get_Set_other (m m' : Memory) (entry : Entry) (key : string)
    (st : memoryState) :
  prefix m +:+ Key entry ≠ prefix m' +:+ key →
  fst (Memory_Get m' key (snd (Memory_Set m entry st)))
  = fst (Memory_Get m' key st).
Proof.
  intros Hne. unfold Memory_Get, Memory_Set. simpl.
  rewrite lookup_insert_ne by done. by destruct (st !! _).
Qed.

(** C8. Over one Memory store, for distinct namespaces [A] and [B] and a
    key [k] that neither the view of [B] nor the unscoped store holds (as
    on a new store): after writing [k] through the view of [A], reading
    [k] through the view of [B] and through the unscoped store still
    yields [ErrNotFound], and reading [k] through the view of [A] returns
    exactly the entry written. *)
Theorem Memory_namespace_isolation (m : Memory) (st : memoryState)
    (A B : string) (entry : Entry) :
  A ≠ B →
  prefix m = "" →
  fst (Memory_Get (Memory_WithNamespace m B) (Key entry) st)
    = (Entry_zero, Some ErrNotFound) →
  fst (Memory_Get m (Key entry) st) = (Entry_zero, Some ErrNotFound) →
  let st' := snd (Memory_Set (Memory_WithNamespace m A) entry st) in
  fst (Memory_Get (Memory_WithNamespace m B) (Key entry) st')
    = (Entry_zero, Some ErrNotFound)
  ∧ fst (Memory_Get m (Key entry) st') = (Entry_zero, Some ErrNotFound)
  ∧ fst (Memory_Get (Memory_WithNamespace m A) (Key entry) st') = (entry, None).
Proof.
  intros HAB Hroot HB Hm st'. subst st'. repeat split.
  - rewrite Memory_Get_Set_other; [done |].
    intros H. by apply namespace_slot_inj in H.
  - rewrite Memory_Get_Set_other; [done |].
    rewrite Hroot. apply namespace_slot_scoped.
  - apply Memory_Get_Set_same.
Qed.

Lemma Memory_namespace_isolation_witness :
  let m := fst NewMemory in
  let entry := mkEntry "host" "prod.db" 7 "seed" in
  let st' := snd (Memory_Set (Memory_WithNamespace m "prod") entry ∅) in
  fst (Memory_Get (Memory_WithNamespace m "qa") "host" st')
    = (Entry_zero, Some ErrNotFound)
  ∧ fst (Memory_Get m "host" st') = (Entry_zero, Some ErrNotFound)
  ∧ fst (Memory_Get (Memory_WithNamespace m "prod") "host" st') = (entry, None).
Proof.
  intros m entry.
  apply (Memory_namespace_isolation m ∅ "prod" "qa" entry);
    [discriminate | reflexivity | reflexivity | reflexivity].
Defined.

(** C10. The scoping of Memory is key prefixing with the separator "/",
    and a key that contains the separator breaks the isolation: the entry
    set under key "ns/k" on the unscoped store is what [Get] of "k" returns
    on the view of namespace "ns"; and key "b/c" under namespace "a" and
    key "c" under namespace "a/b" are one slot of the map, so that a write
    through the first view is read through the second. *)
Theorem Memory_separator_collision :
  let m := fst NewMemory in
  let e := mkEntry "ns/k" "v" 7 "seed" in
  let e' := mkEntry "b/c" "w" 7 "seed" in
  prefix (Memory_WithNamespace m "ns") = "ns/"
  ∧ fst (Memory_Get (Memory_WithNamespace m "ns") "k" (snd (Memory_Set m e ∅)))
    = (e, None)
  ∧ prefix (Memory_WithNamespace m "a") +:+ "b/c"
    = prefix (Memory_WithNamespace m "a/b") +:+ "c"
  ∧ fst (Memory_Get (Memory_WithNamespace m "a/b") "c"
           (snd (Memory_Set (Memory_WithNamespace m "a") e' ∅)))
    = (e', None).
Proof. repeat split. Qed.

(** ** package time *)

(** [Sub] is the difference, cut to the range of [Duration]. *)
Lemma Sub_clamp (t u : Time) :
  Sub t u = Z.max minDuration (Z.min maxDuration (t - u)).
Proof.
  unfold Sub, minDuration, maxDuration.
  destruct (Z.ltb_spec (t - u) (- 2 ^ 63)); [lia |].
  destruct (Z.ltb_spec (2 ^ 63 - 1) (t - u)); lia.
Qed.

Lemma Sub_mono (t t' u : Time) : t ≤ t' → Sub t u ≤ Sub t' u.
Proof. intros Ht. rewrite !Sub_clamp. lia. Qed.

(** ** vault.go *)

Section EngineFacts.

Context {St Ext : Type}.
Implicit Types (v : vault St Ext) (w : World St Ext).

(** C1. The throttle gate [shouldAutoRefresh]: with no source registered
    it denies; with a source and [lastRefresh] unset it permits; with a
    source, [lastRefresh] set and a TTL of zero it denies; with a source,
    [lastRefresh] set and a TTL above zero it permits if and only if the
    time since [lastRefresh] exceeds the TTL. It leaves the store, the
    sources, [lastRefresh] and the call log as they were. *)
Theorem shouldAutoRefresh_gate v w :
  let elapsed := Sub (Z.pos (clock w (ticks w))) (lastRefresh w) in
  let permits := fst (shouldAutoRefresh v w) in
  let w' := snd (shouldAutoRefresh v w) in
  (sources v = [] → permits = false)
  ∧ (sources v ≠ [] → IsZero (lastRefresh w) = true → permits = true)
  ∧ (sources v ≠ [] → IsZero (lastRefresh w) = false → ttl v = 0 →
     permits = false)
  ∧ (sources v ≠ [] → IsZero (lastRefresh w) = false → 0 < ttl v →
     (permits = true ↔ ttl v < elapsed))
  ∧ backing w' = backing w ∧ remote w' = remote w
  ∧ lastRefresh w' = lastRefresh w ∧ calls w' = calls w.
Proof.
  unfold shouldAutoRefresh. run.
  destruct (sources v) as [|src srcs] eqn:Hsrc; simpl.
  { repeat split; try done. }
  destruct (IsZero (lastRefresh w)) eqn:Hzero; simpl.
  { repeat split; try done. }
  destruct (Z.ltb_spec 0 (ttl v)) as [Hpos|Hnpos]; simpl.
  - repeat split; try done; try lia; intros; by apply Z.ltb_lt.
  - repeat split; try done; lia.
Qed.

(** C7. [Set] hands the store one entry, [stored]: its [CreatedAt] is the
    reading of the clock when the given one is zero and the given one
    otherwise, so it is never zero; its [Source] is "manual" when the
    given one is empty and the given one otherwise; its [Key] and [Value]
    are the given ones. The result of [Set] is the result of that one
    call of the store. *)
Theorem Set_defaults v (entry : Entry) w :
  ∃ (stored : Entry) (w1 : World St Ext),
    vault_Set v entry w
      = on_store (CallSet stored) (store_Set (store v) stored) w1
    ∧ backing w1 = backing w ∧ calls w1 = calls w
    ∧ CreatedAt stored
      = (if IsZero (CreatedAt entry) then Z.pos (clock w (ticks w))
         else CreatedAt entry)
    ∧ IsZero (CreatedAt stored) = false
    ∧ Source stored
      = (if decide (Source entry = "") then "manual" else Source entry)
    ∧ Key stored = Key entry
    ∧ Value stored = Value entry.
Proof.
  unfold vault_Set.
  destruct (IsZero (CreatedAt entry)) eqn:Hzero; run;
    (eexists _, _; split; [reflexivity |]); simpl;
    destruct (decide (Source entry = "")) as [He|He]; simpl;
    repeat split; done.
Qed.

(** An error is found in itself by [errors.Is]. *)
Lemma errors_Is_refl (err : error) : errors_Is (Some err) err = true.
Proof.
  unfold errors_Is. destruct err; cbn [unwraps_to]; by rewrite decide_True.
Qed.

(** C5 as amended. When the store's [Get] returns an error that is not
    [ErrNotFound], [Get] returns that very error value, unchanged and not
    wrapped by the engine, together with [Entry{}]; it reads no clock,
    consults no source and leaves [lastRefresh] alone. *)
Theorem Get_store_error_verbatim v (key : string) w
    (e : Entry) (err : error) (st' : St) :
  store_Get (store v) key (backing w) = ((e, Some err), st') →
  errors_Is (Some err) ErrNotFound = false →
  Get v key w
  = ((Entry_zero, Some err),
     mkWorld st' (remote w) (clock w) (ticks w) (lastRefresh w)
             (calls w ++ [CallGet key (e, Some err)]))
  ∧ errors_Is (snd (fst (Get v key w))) err = true.
Proof.
  intros Hget Hnf.
  assert (Get v key w
          = ((Entry_zero, Some err),
             mkWorld st' (remote w) (clock w) (ticks w) (lastRefresh w)
                     (calls w ++ [CallGet key (e, Some err)]))) as Heq.
  { unfold Get. run. rewrite Hget. simpl in *. by rewrite Hnf. }
  split; [exact Heq |]. rewrite Heq. apply errors_Is_refl.
Qed.

(** *** [Refresh] *)

Lemma replay_writes_app (s : Store St) (l1 l2 : list Call) (st : St) :
  replay_writes s (l1 ++ l2) st = replay_writes s l2 (replay_writes s l1 st).
Proof. unfold replay_writes. apply fold_left_app. Qed.

Lemma replay_writes_cons (s : Store St) (c : Call) (l : list Call) (st : St) :
  replay_writes s (c :: l) st
  = replay_writes s l (match c with
                       | CallSet e _ => snd (store_Set s e st)
                       | _ => st
                       end).
Proof. reflexivity. Qed.

(** The inner loop: what it logs, what it leaves alone, what it returns. *)
Lemma Refresh_entries_log v (now : Time) (entries : list Entry) w :
  let r := fst (Refresh_entries v now entries w) in
  let w' := snd (Refresh_entries v now entries w) in
  remote w' = remote w ∧ clock w' = clock w ∧ ticks w' = ticks w
  ∧ lastRefresh w' = lastRefresh w
  ∧ ∃ news,
      calls w' = calls w ++ news
      ∧ backing w' = replay_writes (store v) news (backing w)
      ∧ match r with
        | None => news = log_writes now entries
        | Some err =>
            ∃ done e rest cause,
              entries = done ++ e :: rest
              ∧ news = log_writes now done
                         ++ [CallSet (with_CreatedAt e now) (Some cause)]
              ∧ err = Errorf "vault: refresh: set %q: %w" [Key e] cause
        end.
Proof.
  revert w. induction entries as [|e entries IH]; intros w.
  { simpl. repeat split; try done. exists []. by rewrite app_nil_r. }
  cbn [Refresh_entries]. run.
  destruct (store_Set (store v) (with_CreatedAt e now) (backing w))
    as [serr st1] eqn:Hset.
  destruct serr as [cause|].
  - simpl. repeat split; try done.
    exists [CallSet (with_CreatedAt e now) (Some cause)].
    repeat split; try done.
    + simpl. by rewrite Hset.
    + by exists [], e, entries, cause.
  - match goal with
    | |- context [Refresh_entries v now entries ?w1] =>
        specialize (IH w1); destruct (Refresh_entries v now entries w1)
          as [r w'] eqn:Hrest
    end.
    simpl in *.
    destruct IH as (Hrem & Hclk & Htk & Hlast & news & Hcalls & Hback & Hr).
    repeat split; try done.
    exists (CallSet (with_CreatedAt e now) None :: news).
    repeat split.
    + by rewrite Hcalls, <- app_assoc.
    + simpl. by rewrite Hset.
    + destruct r as [err|]; [| by rewrite Hr].
      destruct Hr as (done & e' & rest & cause & -> & -> & ->).
      by exists (e :: done), e', rest, cause.
Qed.

(** The outer loop, started at position [i]. *)
Lemma Refresh_sources_log v (now : Time) (srcs : list (SourceFunc Ext))
    (i : nat) w :
  let r := fst (Refresh_sources v now i srcs w) in
  let w' := snd (Refresh_sources v now i srcs w) in
  clock w' = clock w ∧ ticks w' = ticks w ∧ lastRefresh w' = lastRefresh w
  ∧ ∃ news,
      calls w' = calls w ++ news
      ∧ backing w' = replay_writes (store v) news (backing w)
      ∧ match r with
        | None =>
            ∃ fetched,
              length fetched = length srcs
              ∧ news = log_sources now i fetched
        | Some err =>
            ∃ fetched tail cause,
              (length fetched < length srcs)%nat
              ∧ news = log_sources now i fetched ++ tail
              ∧ failing_tail now (i + length fetched) tail err cause
        end.
Proof.
  revert i w. induction srcs as [|src srcs IH]; intros i w.
  { simpl. repeat split; try done. exists []. rewrite app_nil_r.
    repeat split; try done. by exists []. }
  cbn [Refresh_sources]. run.
  destruct (src (remote w)) as [[entries ferr] x] eqn:Hfetch.
  destruct ferr as [cause|].
  { simpl. repeat split; try done.
    exists [CallFetch i (entries, Some cause)]. repeat split; try done.
    exists [], [CallFetch i (entries, Some cause)], cause.
    repeat split; [simpl; lia |].
    left. exists entries. by rewrite Nat.add_0_r. }
  match goal with
  | |- context [Refresh_entries v now entries ?w1] =>
      pose proof (Refresh_entries_log v now entries w1) as He;
      destruct (Refresh_entries v now entries w1) as [serr w2] eqn:Hent
  end.
  simpl in He.
  destruct He as (Hrem & Hclk & Htk & Hlast & wr & Hcalls & Hback & Hwr).
  destruct serr as [err|].
  { simpl. repeat split; try done.
    destruct Hwr as (done & e & rest & cause & -> & -> & ->).
    eexists. split; [by rewrite Hcalls, <- app_assoc |].
    split; [by rewrite Hback |].
    exists [], (CallFetch i (done ++ e :: rest, None) :: log_writes now done
                ++ [CallSet (with_CreatedAt e now) (Some cause)]), cause.
    repeat split; [simpl; lia |].
    right. exists done, e, rest. by rewrite Nat.add_0_r. }
  specialize (IH (S i) w2).
  destruct (Refresh_sources v now (S i) srcs w2) as [r w3] eqn:Hrest.
  simpl in *.
  destruct IH as (Hclk3 & Htk3 & Hlast3 & news & Hcalls3 & Hback3 & Hr).
  subst wr.
  repeat split; try congruence.
  exists (CallFetch i (entries, None) :: log_writes now entries ++ news).
  repeat split.
  - rewrite Hcalls3, Hcalls, <- !app_assoc. done.
  - rewrite Hback3, Hback.
    change (CallFetch i (entries, None) :: log_writes now entries ++ news)
      with ([CallFetch i (entries, None)] ++ log_writes now entries ++ news).
    by rewrite !replay_writes_app.
  - destruct r as [err|].
    + destruct Hr as (fetched & tail & cause & Hlen & -> & Htail).
      exists (entries :: fetched), tail, cause.
      repeat split; [simpl; lia | |].
      * simpl. by rewrite <- !app_assoc.
      * simpl. by rewrite <- Nat.add_succ_comm.
    + destruct Hr as (fetched & Hlen & ->).
      exists (entries :: fetched). split; [simpl; lia | done].
Qed.

Lemma Refresh_log v w :
  let now := Z.pos (clock w (ticks w)) in
  let r := fst (Refresh v w) in
  let w' := snd (Refresh v w) in
  clock w' = clock w ∧ ticks w' = S (ticks w)
  ∧ ∃ news,
      calls w' = calls w ++ news
      ∧ backing w' = replay_writes (store v) news (backing w)
      ∧ match r with
        | None =>
            lastRefresh w' = now
            ∧ ∃ fetched,
                length fetched = length (sources v)
                ∧ news = log_sources now 0 fetched
        | Some err =>
            lastRefresh w' = lastRefresh w
            ∧ ∃ fetched tail cause,
                (length fetched < length (sources v))%nat
                ∧ news = log_sources now 0 fetched ++ tail
                ∧ failing_tail now (length fetched) tail err cause
        end.
Proof.
  unfold Refresh. run.
  match goal with
  | |- context [Refresh_sources v ?now 0%nat (sources v) ?w1] =>
      pose proof (Refresh_sources_log v now (sources v) 0%nat w1) as H;
      destruct (Refresh_sources v now 0%nat (sources v) w1) as [r w'] eqn:Hrun
  end.
  simpl in H. destruct H as (Hclk & Htk & Hlast & news & Hcalls & Hback & Hr).
  destruct r as [err|]; simpl.
  - repeat split; try done. exists news. repeat split; done.
  - repeat split; try done. exists news. repeat split; done.
Qed.

(** Once a [Refresh] has returned nil, [lastRefresh] is set: it is not
    the zero instant, since no reading of the clock is. *)
Lemma Refresh_sets_lastRefresh v w :
  fst (Refresh v w) = None → IsZero (lastRefresh (snd (Refresh v w))) = false.
Proof.
  intros Hok. destruct (Refresh_log v w) as (_ & _ & news & _ & _ & Hr).
  rewrite Hok in Hr. destruct Hr as [-> _]. reflexivity.
Qed.

(** Which sources a log of [Refresh] shows as fetched. *)
Lemma log_writes_fetch (now : Time) (entries : list Entry) (j : nat)
    (res : list Entry * option error) :
  CallFetch j res ∉ log_writes now entries.
Proof.
  unfold log_writes. intros H. apply list_elem_of_fmap in H as (e & He & _).
  discriminate.
Qed.

Lemma log_sources_fetch (now : Time) (fetched : list (list Entry)) (i j : nat)
    (res : list Entry * option error) :
  CallFetch j res ∈ log_sources now i fetched →
  (i ≤ j < i + length fetched)%nat.
Proof.
  revert i. induction fetched as [|entries fetched IH]; intros i; simpl.
  { intros H. by apply elem_of_nil in H. }
  rewrite elem_of_cons, elem_of_app. intros [H | [H | H]].
  - injection H as -> _. lia.
  - by apply log_writes_fetch in H.
  - apply IH in H. lia.
Qed.

Lemma failing_tail_fetch (now : Time) (i : nat) (tail : list Call)
    (err cause : error) (j : nat) (res : list Entry * option error) :
  failing_tail now i tail err cause → CallFetch j res ∈ tail → j = i.
Proof.
  intros [(entries & -> & _) | (done & e & rest & -> & _)].
  - rewrite list_elem_of_singleton. by intros [= -> _].
  - rewrite elem_of_cons, elem_of_app, list_elem_of_singleton.
    intros [H | [H | H]]; [by injection H | by apply log_writes_fetch in H
                          | discriminate].
Qed.

(** The error of a failed [Refresh] wraps the error of the collaborator. *)
Lemma failing_tail_Is (now : Time) (i : nat) (tail : list Call)
    (err cause : error) :
  failing_tail now i tail err cause → errors_Is (Some err) cause = true.
Proof.
  intros [(entries & _ & ->) | (done & e & rest & _ & ->)];
    unfold errors_Is; cbn [unwraps_to];
    (case_decide; [reflexivity | apply (errors_Is_refl cause)]).
Qed.

(** Every write of the log carries the instant of the refresh. *)
Lemma log_sources_write (now : Time) (fetched : list (list Entry)) (i : nat)
    (e : Entry) (res : option error) :
  CallSet e res ∈ log_sources now i fetched → CreatedAt e = now ∧ res = None.
Proof.
  revert i. induction fetched as [|entries fetched IH]; intros i; simpl.
  { intros H. by apply elem_of_nil in H. }
  rewrite elem_of_cons, elem_of_app. intros [H | [H | H]].
  - discriminate.
  - unfold log_writes in H. apply list_elem_of_fmap in H as (e' & He & _).
    by injection He as -> ->.
  - by apply IH in H.
Qed.

Lemma log_sources_app (now : Time) (f1 f2 : list (list Entry)) (i : nat) :
  log_sources now i (f1 ++ f2)
  = log_sources now i f1 ++ log_sources now (i + length f1) f2.
Proof.
  revert i. induction f1 as [|entries f1 IH]; intros i; simpl.
  { by rewrite Nat.add_0_r. }
  rewrite IH, <- app_assoc. by rewrite Nat.add_succ_comm.
Qed.

(** *** [Refresh], tied to what the sources and the store return *)

Lemma run_fetches_app (a b : list (SourceFunc Ext)) (x : Ext) :
  run_fetches (a ++ b) x
  = (fst (run_fetches a x) ++ fst (run_fetches b (snd (run_fetches a x))),
     snd (run_fetches b (snd (run_fetches a x)))).
Proof.
  revert x. induction a as [|src a IH]; intros x; simpl.
  { by destruct (run_fetches b x). }
  unfold Fetch. destruct (src x) as [res x1]. rewrite IH.
  destruct (run_fetches a x1) as [ra xa]. simpl.
  by destruct (run_fetches b xa).
Qed.

Lemma run_fetches_length (srcs : list (SourceFunc Ext)) (x : Ext) :
  length (fst (run_fetches srcs x)) = length srcs.
Proof.
  revert x. induction srcs as [|src srcs IH]; intros x; [done |].
  simpl. unfold Fetch. destruct (src x) as [res x1]. specialize (IH x1).
  destruct (run_fetches srcs x1) as [ress x2]. simpl in *. by rewrite IH.
Qed.

Lemma replay_log_app (s : Store St) (srcs : list (SourceFunc Ext))
    (l1 l2 : list Call) (st : St) (x : Ext) :
  replay_log s srcs (l1 ++ l2) st x
  = match replay_log s srcs l1 st x with
    | Some (st', x') => replay_log s srcs l2 st' x'
    | None => None
    end.
Proof.
  revert st x. induction l1 as [|c l1 IH]; intros st x; [done |].
  destruct c; simpl.
  - destruct (store_Get s key st) as [r st']. by case_decide.
  - destruct (store_Set s entry st) as [r st']. by case_decide.
  - destruct (store_Delete s key st) as [r st']. by case_decide.
  - destruct (store_List s st) as [r st']. by case_decide.
  - destruct (srcs !! i) as [src|]; [| done]. unfold Fetch.
    destruct (src x) as [r x']. by case_decide.
Qed.

(** The log of the inner loop is a true record of the calls made to the
    store: replayed, every call returns what was logged, and the store
    ends in the state the loop left it in. *)
Lemma Refresh_entries_replay v (now : Time) (entries : list Entry)
    (srcs : list (SourceFunc Ext)) w :
  let w' := snd (Refresh_entries v now entries w) in
  ∃ news,
    calls w' = calls w ++ news
    ∧ replay_log (store v) srcs news (backing w) (remote w)
      = Some (backing w', remote w').
Proof.
  revert w. induction entries as [|e entries IH]; intros w.
  { simpl. exists []. by rewrite app_nil_r. }
  cbn [Refresh_entries]. run.
  destruct (store_Set (store v) (with_CreatedAt e now) (backing w))
    as [serr st1] eqn:Hset.
  destruct serr as [cause|].
  - simpl. exists [CallSet (with_CreatedAt e now) (Some cause)].
    split; [done |]. simpl. rewrite Hset. by rewrite decide_True.
  - match goal with
    | |- context [Refresh_entries v now entries ?w1] =>
        specialize (IH w1); destruct (Refresh_entries v now entries w1)
          as [r w'] eqn:Hrest
    end.
    simpl in *. destruct IH as (news & Hcalls & Hreplay).
    exists (CallSet (with_CreatedAt e now) None :: news). split.
    + by rewrite Hcalls, <- app_assoc.
    + simpl. rewrite Hset. by rewrite decide_True.
Qed.

(** The outer loop, started at the source behind the sources [pre]: what
    it logs, and how the log, the results of the sources and the state of
    the external systems hang together. *)
Lemma Refresh_sources_spec v (now : Time) (pre srcs : list (SourceFunc Ext))
    (i : nat) w :
  i = length pre →
  let r := fst (Refresh_sources v now i srcs w) in
  let w' := snd (Refresh_sources v now i srcs w) in
  lastRefresh w' = lastRefresh w
  ∧ ∃ news,
      calls w' = calls w ++ news
      ∧ backing w' = replay_writes (store v) news (backing w)
      ∧ replay_log (store v) (pre ++ srcs) news (backing w) (remote w)
        = Some (backing w', remote w')
      ∧ match r with
        | None =>
            Forall (λ res, snd res = None) (fst (run_fetches srcs (remote w)))
            ∧ remote w' = snd (run_fetches srcs (remote w))
            ∧ news = log_sources now i
                       (fst <$> fst (run_fetches srcs (remote w)))
        | Some err =>
            ∃ fetched tail cause,
              (length fetched < length srcs)%nat
              ∧ news = log_sources now i fetched ++ tail
              ∧ failing_tail now (i + length fetched) tail err cause
              ∧ fst (run_fetches (take (length fetched) srcs) (remote w))
                = (λ entries, (entries, None)) <$> fetched
              ∧ remote w'
                = snd (run_fetches (take (S (length fetched)) srcs) (remote w))
        end.
Proof.
  revert pre i w. induction srcs as [|src srcs IH]; intros pre i w Hi.
  { simpl. split; [done |]. exists []. rewrite app_nil_r.
    repeat split; try done. }
  cbn [Refresh_sources]. run.
  assert ((pre ++ src :: srcs) !! i = Some src) as Hsrc.
  { subst i. apply list_lookup_middle. done. }
  destruct (src (remote w)) as [[entries ferr] x] eqn:Hfetch.
  destruct ferr as [cause|].
  { simpl. split; [done |].
    exists [CallFetch i (entries, Some cause)]. repeat split; try done.
    - simpl. rewrite Hsrc. unfold Fetch. rewrite Hfetch.
      by rewrite decide_True.
    - exists [], [CallFetch i (entries, Some cause)], cause.
      split; [simpl; lia |]. split; [done |].
      split; [left; exists entries; by rewrite Nat.add_0_r |].
      split; [done |]. simpl. unfold Fetch. by rewrite Hfetch. }
  match goal with
  | |- context [Refresh_entries v now entries ?w1] =>
      pose proof (Refresh_entries_log v now entries w1) as He;
      pose proof (Refresh_entries_replay v now entries (pre ++ src :: srcs) w1)
        as Hre;
      destruct (Refresh_entries v now entries w1) as [serr w2] eqn:Hent
  end.
  simpl in He, Hre.
  destruct He as (Hrem & Hclk & Htk & Hlast & wr & Hcalls & Hback & Hwr).
  destruct Hre as (wr' & Hcalls' & Hreplay).
  assert (wr' = wr) as ->.
  { rewrite Hcalls in Hcalls'. by apply app_inv_head in Hcalls'. }
  destruct serr as [err|].
  { simpl. split; [done |].
    destruct Hwr as (done & e & rest & cause & -> & -> & ->).
    eexists. split; [by rewrite Hcalls, <- app_assoc |].
    split; [by rewrite Hback |]. split.
    - simpl. rewrite Hsrc. unfold Fetch. rewrite Hfetch.
      by rewrite decide_True.
    - exists [], (CallFetch i (done ++ e :: rest, None) :: log_writes now done
                  ++ [CallSet (with_CreatedAt e now) (Some cause)]), cause.
      split; [simpl; lia |]. split; [done |].
      split; [right; exists done, e, rest; by rewrite Nat.add_0_r |].
      split; [done |]. simpl. unfold Fetch. by rewrite Hfetch. }
  specialize (IH (pre ++ [src]) (S i) w2).
  rewrite <- app_assoc in IH. change ([src] ++ srcs) with (src :: srcs) in IH.
  destruct (Refresh_sources v now (S i) srcs w2) as [r w3] eqn:Hrest.
  simpl in *.
  destruct IH as (Hlast3 & news & Hcalls3 & Hback3 & Hreplay3 & Hr).
  { rewrite length_app. simpl. lia. }
  subst wr. rewrite Hrem in *.
  split; [congruence |].
  exists (CallFetch i (entries, None) :: log_writes now entries ++ news).
  repeat split.
  - rewrite Hcalls3, Hcalls, <- !app_assoc. done.
  - rewrite Hback3, Hback.
    change (CallFetch i (entries, None) :: log_writes now entries ++ news)
      with ([CallFetch i (entries, None)] ++ log_writes now entries ++ news).
    by rewrite !replay_writes_app.
  - cbn [replay_log]. rewrite Hsrc. unfold Fetch. rewrite Hfetch.
    rewrite decide_True by done.
    rewrite replay_log_app, Hreplay. exact Hreplay3.
  - unfold Fetch. rewrite Hfetch.
    destruct r as [err|].
    + destruct Hr as (fetched & tail & cause & Hlen & -> & Htail & Hres & Hx).
      exists (entries :: fetched), tail, cause.
      split; [simpl; lia |].
      split; [simpl; by rewrite <- !app_assoc |].
      split; [simpl; by rewrite <- Nat.add_succ_comm |]. split.
      * simpl. unfold Fetch. rewrite ?Hfetch.
        destruct (run_fetches (take (length fetched) srcs) x) as [ress x2].
        simpl in *. by rewrite Hres.
      * simpl. unfold Fetch. rewrite ?Hfetch.
        destruct (run_fetches (take (S (length fetched)) srcs) x)
          as [ress x2]. done.
    + destruct Hr as (Hall & Hx & ->).
      destruct (run_fetches srcs x) as [ress x2]. simpl in *.
      repeat split; try done. by constructor.
Qed.

Lemma Refresh_spec v w :
  let now := Z.pos (clock w (ticks w)) in
  let r := fst (Refresh v w) in
  let w' := snd (Refresh v w) in
  ∃ news,
    calls w' = calls w ++ news
    ∧ backing w' = replay_writes (store v) news (backing w)
    ∧ replay_log (store v) (sources v) news (backing w) (remote w)
      = Some (backing w', remote w')
    ∧ match r with
      | None =>
          lastRefresh w' = now
          ∧ Forall (λ res, snd res = None)
                   (fst (run_fetches (sources v) (remote w)))
          ∧ remote w' = snd (run_fetches (sources v) (remote w))
          ∧ news = log_sources now 0
                     (fst <$> fst (run_fetches (sources v) (remote w)))
      | Some err =>
          lastRefresh w' = lastRefresh w
          ∧ ∃ fetched tail cause,
              (length fetched < length (sources v))%nat
              ∧ news = log_sources now 0 fetched ++ tail
              ∧ failing_tail now (length fetched) tail err cause
              ∧ fst (run_fetches (take (length fetched) (sources v))
                                 (remote w))
                = (λ entries, (entries, None)) <$> fetched
              ∧ remote w'
                = snd (run_fetches (take (S (length fetched)) (sources v))
                                   (remote w))
      end.
Proof.
  unfold Refresh. run.
  match goal with
  | |- context [Refresh_sources v ?now 0%nat (sources v) ?w1] =>
      pose proof (Refresh_sources_spec v now [] (sources v) 0%nat w1 eq_refl)
        as H;
      destruct (Refresh_sources v now 0%nat (sources v) w1) as [r w'] eqn:Hrun
  end.
  simpl in H. destruct H as (Hlast & news & Hcalls & Hback & Hreplay & Hr).
  destruct r as [err|]; simpl.
  - exists news. do 3 (split; [done |]). split; [done | exact Hr].
  - exists news. do 3 (split; [done |]). split; [done | exact Hr].
Qed.

(** C3. [Refresh] is tied to what the sources and the store return: the
    calls it logs, replayed on the store and on the sources of the vault
    (a logged fetch of position [i] on the source registered at position
    [i]), return what the log says, and leave the store and the external
    systems in the states [Refresh] leaves them in.

    [Refresh] moves [lastRefresh], to the instant read when it started,
    exactly when it returns nil; then every source of the vault has been
    fetched, in the order registered, each in the external state its
    predecessor left, none returned an error, and every entry each
    returned was written, stamped, right after its fetch, without error.

    When it returns an error, [lastRefresh] is as before. The sources
    ahead of the failing one returned the lists [fetched] without error
    and these were written in full; then comes the failing call, a fetch
    or a write of what the failing source returned; the external systems
    are in the state the fetches of the sources up to the failing one
    leave, so no source behind it was consulted; the error returned wraps
    the error of the failing call. In both cases the store is in the state
    the logged writes leave it in: nothing written is undone. *)
Theorem Refresh_lastRefresh_after_all v w :
  let now := Z.pos (clock w (ticks w)) in
  let r := fst (Refresh v w) in
  let w' := snd (Refresh v w) in
  ∃ news,
    calls w' = calls w ++ news
    ∧ replay_log (store v) (sources v) news (backing w) (remote w)
      = Some (backing w', remote w')
    ∧ backing w' = replay_writes (store v) news (backing w)
    ∧ match r with
      | None =>
          lastRefresh w' = now
          ∧ Forall (λ res, snd res = None)
                   (fst (run_fetches (sources v) (remote w)))
          ∧ remote w' = snd (run_fetches (sources v) (remote w))
          ∧ news = log_sources now 0
                     (fst <$> fst (run_fetches (sources v) (remote w)))
      | Some err =>
          lastRefresh w' = lastRefresh w
          ∧ ∃ fetched tail cause,
              (length fetched < length (sources v))%nat
              ∧ fst (run_fetches (take (length fetched) (sources v))
                                 (remote w))
                = (λ entries, (entries, None)) <$> fetched
              ∧ remote w'
                = snd (run_fetches (take (S (length fetched)) (sources v))
                                   (remote w))
              ∧ news = log_sources now 0 fetched ++ tail
              ∧ failing_tail now (length fetched) tail err cause
              ∧ errors_Is (Some err) cause = true
              ∧ ∀ j res, CallFetch j res ∈ news → (j ≤ length fetched)%nat
      end.
Proof.
  intros now r w'. subst now r w'.
  destruct (Refresh_spec v w) as (news & Hcalls & Hback & Hreplay & Hr).
  exists news. split; [done |]. split; [done |]. split; [done |].
  destruct (fst (Refresh v w)) as [err|]; [| done].
  destruct Hr as (Hlast & fetched & tail & cause & Hlen & -> & Htail & Hres
                  & Hx).
  split; [done |]. exists fetched, tail, cause.
  repeat split; try done.
  - by eapply failing_tail_Is.
  - intros j res. rewrite elem_of_app. intros [H | H].
    + apply log_sources_fetch in H. lia.
    + eapply failing_tail_fetch in H; [| done]. lia.
Qed.

(** *** [expired], [shouldAutoRefresh] and [Get] *)

(** [expired] reads the clock once when the TTL is above zero, and not at
    all otherwise; it changes nothing else. *)
Lemma expired_eq v (e : Entry) w :
  expired v e w
  = if ttl v <=? 0 then (false, w)
    else (ttl v <? Sub (Z.pos (clock w (ticks w))) (CreatedAt e),
          mkWorld (backing w) (remote w) (clock w) (S (ticks w))
                  (lastRefresh w) (calls w)).
Proof. unfold expired. run. by destruct (ttl v <=? 0). Qed.

(** On a clock that does not run backwards, an entry judged expired is
    judged expired again at the next reading. *)
Lemma expired_again v (e : Entry) w wm :
  clock_monotone w →
  expired v e w = (true, wm) →
  fst (expired v e wm) = true.
Proof.
  intros Hmono. rewrite !expired_eq.
  destruct (Z.leb_spec (ttl v) 0) as [|Hpos]; [discriminate |].
  intros [= Hlt <-]. simpl. apply Z.ltb_lt. apply Z.ltb_lt in Hlt.
  pose proof (Hmono (ticks w) (S (ticks w)) ltac:(lia)) as Hle.
  pose proof (Sub_mono (Z.pos (clock w (ticks w)))
                       (Z.pos (clock w (S (ticks w)))) (CreatedAt e)
                       ltac:(lia)).
  lia.
Qed.

Lemma shouldAutoRefresh_frame v w :
  let w' := snd (shouldAutoRefresh v w) in
  backing w' = backing w ∧ remote w' = remote w ∧ clock w' = clock w
  ∧ lastRefresh w' = lastRefresh w ∧ calls w' = calls w.
Proof.
  unfold shouldAutoRefresh. run.
  destruct (length (sources v) =? 0)%nat; [done |].
  destruct (IsZero (lastRefresh w)); [done |].
  by destruct (0 <? ttl v).
Qed.

Lemma shouldAutoRefresh_sources v w :
  fst (shouldAutoRefresh v w) = true → sources v ≠ [].
Proof.
  unfold shouldAutoRefresh. intros H Hnil. rewrite Hnil in H. done.
Qed.

(** [Get] from its line 149 on, once the lookup is a miss: [ErrNotFound]
    from the store, or an entry that both evaluations of [expired] judge
    expired. [w2] is the world when the gate is asked. *)
Lemma Get_miss v (key : string) w (e : Entry) (err : option error)
    (st' : St) (w2 : World St Ext) :
  store_Get (store v) key (backing w) = ((e, err), st') →
  let w1 := mkWorld st' (remote w) (clock w) (ticks w) (lastRefresh w)
                    (calls w ++ [CallGet key (e, err)]) in
  (errors_Is err ErrNotFound = true ∧ w2 = w1)
  ∨ (err = None
     ∧ ∃ wm, expired v e w1 = (true, wm) ∧ expired v e wm = (true, w2)) →
  Get v key w
  = let '(go, w3) := shouldAutoRefresh v w2 in
    if go then
      let '(rerr, w4) := Refresh v w3 in
      match rerr with
      | Some _ => ((Entry_zero, rerr), w4)
      | None => on_store (CallGet key) (store_Get (store v) key) w4
      end
    else ((Entry_zero, Some ErrNotFound), w3).
Proof.
  intros Hget w1 Hmiss. unfold Get.
  unfold mbind at 1. unfold M_bind at 1.
  unfold on_store at 1. rewrite Hget. fold w1.
  destruct Hmiss as [[Hnf ->] | (-> & wm & H1 & H2)].
  - destruct err as [x|]; [| discriminate]. run. rewrite Hnf. simpl.
    destruct (shouldAutoRefresh v w1) as [[|] w3]; simpl; [| done].
    destruct (Refresh v w3) as [[rerr|] w4]; done.
  - run. rewrite H1. simpl. rewrite H2. simpl.
    destruct (shouldAutoRefresh v w2) as [[|] w3]; simpl; [| done].
    destruct (Refresh v w3) as [[rerr|] w4]; done.
Qed.

(** [Get] evaluates [expired] twice on the entry the store returned, at
    lines 140 and 144, each time with a reading of the clock of its own.
    When the lookup is [ErrNotFound], or both evaluations judge the entry
    expired (they agree whenever the clock does not run backwards, see
    [expired_again]), and the gate denies, [Get] returns [Entry{}] with
    [ErrNotFound]; it consults no source and leaves the store and
    [lastRefresh] as the lookup left them. With no source registered the
    gate always denies. What [Get] does when the two evaluations differ
    is shown on [stepback_vault] among the scenarios. *)
Lemma Get_gate_denies_NotFound v (key : string) w (e : Entry)
    (err : option error) (st' : St) (w2 : World St Ext) :
  store_Get (store v) key (backing w) = ((e, err), st') →
  let w1 := mkWorld st' (remote w) (clock w) (ticks w) (lastRefresh w)
                    (calls w ++ [CallGet key (e, err)]) in
  (errors_Is err ErrNotFound = true ∧ w2 = w1)
  ∨ (err = None
     ∧ ∃ wm, expired v e w1 = (true, wm) ∧ expired v e wm = (true, w2)) →
  (fst (shouldAutoRefresh v w2) = false ∨ sources v = []) →
  fst (Get v key w) = (Entry_zero, Some ErrNotFound)
  ∧ calls (snd (Get v key w)) = calls w ++ [CallGet key (e, err)]
  ∧ backing (snd (Get v key w)) = st'
  ∧ remote (snd (Get v key w)) = remote w
  ∧ lastRefresh (snd (Get v key w)) = lastRefresh w.
Proof.
  intros Hget w1 Hmiss Hgate.
  rewrite (Get_miss v key w e err st' w2 Hget Hmiss).
  assert (fst (shouldAutoRefresh v w2) = false) as Hdeny.
  { destruct Hgate as [H | Hnil]; [done |].
    unfold shouldAutoRefresh. by rewrite Hnil. }
  pose proof (shouldAutoRefresh_frame v w2) as Hframe.
  destruct (shouldAutoRefresh v w2) as [go w3]. simpl in *. subst go.
  destruct Hframe as (Hb & Hr & _ & Hl & Hc).
  assert (backing w2 = st' ∧ remote w2 = remote w
          ∧ lastRefresh w2 = lastRefresh w
          ∧ calls w2 = calls w ++ [CallGet key (e, err)]) as (? & ? & ? & ?).
  { destruct Hmiss as [[_ ->] | (_ & wm & H1 & H2)]; [done |].
    rewrite expired_eq in H1, H2.
    destruct (ttl v <=? 0); [discriminate |].
    injection H1 as _ <-. injection H2 as _ <-. done. }
  simpl. repeat split; congruence.
Qed.

(** After a refresh that [Get] started and that went well, [Get] returns
    what the second lookup in the store returns, whatever its age:
    [expired] is not asked again. *)
Lemma Get_requery v (key : string) w (e : Entry) (err : option error)
    (st' : St) (w2 w4 : World St Ext) :
  store_Get (store v) key (backing w) = ((e, err), st') →
  let w1 := mkWorld st' (remote w) (clock w) (ticks w) (lastRefresh w)
                    (calls w ++ [CallGet key (e, err)]) in
  (errors_Is err ErrNotFound = true ∧ w2 = w1)
  ∨ (err = None
     ∧ ∃ wm, expired v e w1 = (true, wm) ∧ expired v e wm = (true, w2)) →
  fst (shouldAutoRefresh v w2) = true →
  Refresh v (snd (shouldAutoRefresh v w2)) = (None, w4) →
  Get v key w = on_store (CallGet key) (store_Get (store v) key) w4.
Proof.
  intros Hget w1 Hmiss Hgo Hrefresh.
  rewrite (Get_miss v key w e err st' w2 Hget Hmiss).
  destruct (shouldAutoRefresh v w2) as [go w3]. simpl in *. subst go.
  by rewrite Hrefresh.
Qed.

(** C2 as amended. For an entry [e] that the store returns for the key,
    [Get] judges it fresh (not [expired]) if and only if the TTL is zero
    or below, or the time since [CreatedAt] is at most the TTL. An entry
    judged fresh is returned at once: the lookup is the only call made,
    and [lastRefresh] stays. An entry not judged fresh is never returned
    without a source having been fetched, on a clock that does not run
    backwards. *)
Theorem Get_fresh_iff v (key : string) w (e : Entry) (st' : St) :
  store_Get (store v) key (backing w) = ((e, None), st') →
  let elapsed := Sub (Z.pos (clock w (ticks w))) (CreatedAt e) in
  let w1 := mkWorld st' (remote w) (clock w) (ticks w) (lastRefresh w)
                    (calls w ++ [CallGet key (e, None)]) in
  (fst (expired v e w1) = false ↔ ttl v ≤ 0 ∨ elapsed ≤ ttl v)
  ∧ (ttl v ≤ 0 ∨ elapsed ≤ ttl v →
     fst (Get v key w) = (e, None)
     ∧ calls (snd (Get v key w)) = calls w ++ [CallGet key (e, None)]
     ∧ backing (snd (Get v key w)) = st'
     ∧ remote (snd (Get v key w)) = remote w
     ∧ lastRefresh (snd (Get v key w)) = lastRefresh w)
  ∧ (¬ (ttl v ≤ 0 ∨ elapsed ≤ ttl v) →
     clock_monotone w →
     fst (Get v key w) = (e, None) →
     ∃ fetched, CallFetch 0 (fetched, None) ∈ calls (snd (Get v key w))).
Proof.
  intros Hget elapsed w1.
  assert (fst (expired v e w1) = false ↔ ttl v ≤ 0 ∨ elapsed ≤ ttl v) as Hiff.
  { rewrite expired_eq. subst elapsed. simpl.
    destruct (Z.leb_spec (ttl v) 0); simpl.
    - split; [by left | done].
    - rewrite Z.ltb_ge. split; [by right | lia]. }
  split; [exact Hiff |]. split.
  - intros Hfresh. apply Hiff in Hfresh.
    unfold Get. run. rewrite Hget. fold w1.
    rewrite expired_eq in Hfresh |- *.
    destruct (ttl v <=? 0); simpl in *; [done |].
    rewrite Hfresh. done.
  - intros Hstale Hmono Hres.
    assert (fst (expired v e w1) = true) as H1.
    { destruct (fst (expired v e w1)); [done |].
      exfalso. apply Hstale. by apply Hiff. }
    destruct (expired v e w1) as [b wm] eqn:Hexp1. simpl in H1. subst b.
    assert (clock_monotone w1) as Hmono1 by exact Hmono.
    pose proof (expired_again v e w1 wm Hmono1 Hexp1) as H2.
    destruct (expired v e wm) as [b w2] eqn:Hexp2. simpl in H2. subst b.
    assert (Get v key w
            = let '(go, w3) := shouldAutoRefresh v w2 in
              if go then
                let '(rerr, w4) := Refresh v w3 in
                match rerr with
                | Some _ => ((Entry_zero, rerr), w4)
                | None => on_store (CallGet key) (store_Get (store v) key) w4
                end
              else ((Entry_zero, Some ErrNotFound), w3)) as Hpath.
    { apply (Get_miss v key w e None st' w2 Hget). right. split; [done |].
      by exists wm. }
    rewrite Hpath in Hres |- *.
    pose proof (shouldAutoRefresh_sources v w2) as Hsrc.
    destruct (shouldAutoRefresh v w2) as [[|] w3]; [| discriminate].
    specialize (Hsrc eq_refl).
    pose proof (Refresh_log v w3) as Hlog.
    destruct (Refresh v w3) as [[rerr|] w4]; [discriminate |].
    simpl in Hlog.
    destruct Hlog as (_ & _ & news & Hcalls & _ & _ & fetched & Hlen & ->).
    destruct fetched as [|entries fetched].
    { destruct (sources v); [done | discriminate]. }
    exists entries. unfold on_store.
    destruct (store_Get (store v) key (backing w4)) as [res st4]. simpl.
    rewrite Hcalls. cbn [log_sources].
    rewrite !elem_of_app, elem_of_cons. left. right. by left.
Qed.

(** *** options.go *)

(** A source registered last is last in [v.sources]. *)
Lemma New_WithSource (d : StoreValue St) (opts : list (Option St Ext))
    (s : SourceFunc Ext) :
  sources (New d (opts ++ [WithSource s])) = sources (New d opts) ++ [s].
Proof. unfold New. by rewrite fold_left_app. Qed.

(** Registering sources and nothing else gives [v.sources] in the order
    of registration. *)
Lemma New_sources (d : StoreValue St) (srcs : list (SourceFunc Ext)) :
  sources (New d (WithSource <$> srcs)) = srcs.
Proof.
  induction srcs as [|s srcs IH] using rev_ind; [done |].
  rewrite fmap_app. change (WithSource <$> [s]) with [WithSource (St:=St) s].
  by rewrite New_WithSource, IH.
Qed.

End EngineFacts.

(** ** The engine over the in-memory store *)

Section MemoryEngineFacts.

Context {Ext : Type}.
Implicit Types (v : vault memoryState Ext) (w : World memoryState Ext).

(** Writes of other keys leave a key as it was. *)
Lemma Memory_replay_other (m : Memory) (now : Time) (entries : list Entry)
    (key : string) (st : memoryState) :
  (∀ e, e ∈ entries → Key e ≠ key) →
  fst (Memory_Get m key
         (replay_writes (Memory_Store m) (log_writes now entries) st))
  = fst (Memory_Get m key st).
Proof.
  revert st. induction entries as [|a entries IH]; intros st Hne; [done |].
  change (log_writes now (a :: entries))
    with (CallSet (with_CreatedAt a now) None :: log_writes now entries).
  rewrite replay_writes_cons, IH.
  - apply (Memory_Get_Set_other m m (with_CreatedAt a now)). simpl. intros H.
    apply (inj (String.append (prefix m))) in H.
    apply (Hne a); [| exact H]. apply elem_of_cons. by left.
  - intros e He. apply Hne. apply elem_of_cons. by right.
Qed.

(** Of the entries one source supplies for a key, the last one written is
    the one the store holds. *)
Lemma Memory_replay_last (m : Memory) (now : Time) (done rest : list Entry)
    (e : Entry) (st : memoryState) :
  (∀ e', e' ∈ rest → Key e' ≠ Key e) →
  fst (Memory_Get m (Key e)
         (replay_writes (Memory_Store m)
                        (log_writes now (done ++ e :: rest)) st))
  = (with_CreatedAt e now, None).
Proof.
  intros Hrest. unfold log_writes. rewrite fmap_app, replay_writes_app.
  rewrite fmap_cons, replay_writes_cons.
  fold (log_writes now rest). rewrite Memory_replay_other by done.
  apply (Memory_Get_Set_same m (with_CreatedAt e now)).
Qed.

(** After a [Refresh] that returned nil, over a Memory store, a key that
    the source registered last supplied holds the entry of that source
    (the last one of that key in the list it returned), stamped with the
    instant of the refresh. [B] returns that list in the state of the
    external systems the sources ahead of it, fetched in the order
    registered, have left. *)
Lemma Refresh_last_wins (m : Memory) v w (pre : list (SourceFunc Ext))
    (B : SourceFunc Ext) (done rest : list Entry) (eb : Entry) :
  store v = Memory_Store m →
  fst (Refresh v w) = None →
  sources v = pre ++ [B] →
  fst (Fetch B (snd (run_fetches pre (remote w))))
  = (done ++ eb :: rest, None) →
  (∀ e', e' ∈ rest → Key e' ≠ Key eb) →
  fst (Memory_Get m (Key eb) (backing (snd (Refresh v w))))
  = (with_CreatedAt eb (Z.pos (clock w (ticks w))), None).
Proof.
  intros Hstore Hok Hsrcs HB Hrest.
  destruct (Refresh_spec v w) as (news & _ & Hback & _ & Hr).
  rewrite Hok in Hr. destruct Hr as (_ & _ & _ & ->).
  rewrite Hback, Hstore, Hsrcs, run_fetches_app. cbn [fst snd run_fetches].
  destruct (Fetch B (snd (run_fetches pre (remote w)))) as [res xb].
  simpl in HB. subst res. cbn [fst].
  rewrite fmap_app, log_sources_app, replay_writes_app.
  cbn [fmap list_fmap fst log_sources]. rewrite app_nil_r, replay_writes_cons.
  by apply Memory_replay_last.
Qed.

(** C6. Sources are kept in the order [WithSource] registered them. A
    [Refresh] that returns nil has fetched every source of [v.sources],
    in that order, each in the state of the external systems its
    predecessor left, and none returned an error; it has written the
    entries each source returned right after its [Fetch], ahead of the
    [Fetch] of the next source, each entry with its [CreatedAt] replaced
    by the instant of the refresh. Over a Memory store, whenever the
    sources are [pre] followed by [B], a key of an entry that [B] returned
    then holds that entry (the last one of that key in what [B]
    returned), whatever the sources [pre] supplied for the key. *)
Theorem Refresh_order_overwrite (m : Memory) v w :
  store v = Memory_Store m →
  fst (Refresh v w) = None →
  let now := Z.pos (clock w (ticks w)) in
  let w' := snd (Refresh v w) in
  let results := fst (run_fetches (sources v) (remote w)) in
  (∀ (d : StoreValue memoryState) (opts : list (Option memoryState Ext))
     (s : SourceFunc Ext),
      sources (New d (opts ++ [WithSource s])) = sources (New d opts) ++ [s])
  ∧ length results = length (sources v)
  ∧ Forall (λ res, snd res = None) results
  ∧ remote w' = snd (run_fetches (sources v) (remote w))
  ∧ calls w' = calls w ++ log_sources now 0 (fst <$> results)
  ∧ backing w'
    = replay_writes (Memory_Store m) (log_sources now 0 (fst <$> results))
                    (backing w)
  ∧ (∀ e res, CallSet e res ∈ log_sources now 0 (fst <$> results) →
              CreatedAt e = now ∧ res = None)
  ∧ (∀ (pre : list (SourceFunc Ext)) (B : SourceFunc Ext)
       (done rest : list Entry) (eb : Entry),
        sources v = pre ++ [B] →
        fst (Fetch B (snd (run_fetches pre (remote w))))
        = (done ++ eb :: rest, None) →
        (∀ e', e' ∈ rest → Key e' ≠ Key eb) →
        fst (Memory_Get m (Key eb) (backing w'))
        = (with_CreatedAt eb now, None)).
Proof.
  intros Hstore Hok now w' results. subst now w' results.
  split; [apply New_WithSource |].
  split; [apply run_fetches_length |].
  destruct (Refresh_spec v w) as (news & Hcalls & Hback & _ & Hr).
  rewrite Hok in Hr. destruct Hr as (_ & Hall & Hx & ->).
  split; [done |]. split; [done |]. split; [done |].
  split; [by rewrite <- Hstore |].
  split; [intros e res; apply log_sources_write |].
  intros pre B done rest eb. by apply Refresh_last_wins.
Qed.

End MemoryEngineFacts.

(** ** The scenarios, run *)

(** The gate at work on [stale_vault]: it denies 7 ns after a refresh with
    a TTL of 10 ns. *)
Example shouldAutoRefresh_throttled :
  fst (shouldAutoRefresh stale_vault throttled_world) = false
  ∧ fst (shouldAutoRefresh stale_vault stale_world) = true.
Proof. split; reflexivity. Qed.

(** C2, as first stated with "the TTL is zero", fails on a TTL below zero:
    [Get] judges fresh, and returns at once, an entry whose age of 100 ns
    is above the TTL of -1 ns. *)
Lemma Get_fresh_negative_ttl :
  let v := negative_ttl_vault in
  let w := negative_ttl_world in
  let e := mkEntry "k" "v" 100 "manual" in
  let elapsed := Sub (Z.pos (clock w (ticks w))) (CreatedAt e) in
  fst (store_Get (store v) "k" (backing w)) = (e, None)
  ∧ fst (Get v "k" w) = (e, None)
  ∧ calls (snd (Get v "k" w)) = calls w ++ [CallGet "k" (e, None)]
  ∧ ¬ (ttl v = 0 ∨ elapsed ≤ ttl v).
Proof.
  repeat split. vm_compute. intros [H | H]; [discriminate | by apply H].
Qed.

Lemma Get_fresh_iff_witness :
  let v := young_vault in
  let w := young_world in
  let e := mkEntry "k" "v" 100 "manual" in
  store_Get (store v) "k" (backing w) = ((e, None), backing w)
  ∧ fst (Get v "k" w) = (e, None)
  ∧ calls (snd (Get v "k" w)) = calls w ++ [CallGet "k" (e, None)].
Proof.
  intros v w e. split; [reflexivity |].
  destruct (Get_fresh_iff v "k" w e (backing w) eq_refl) as (_ & Hfresh & _).
  destruct Hfresh as (Hres & Hcalls & _).
  - right. vm_compute. discriminate.
  - split; [exact Hres | exact Hcalls].
Defined.

(** C4. [Get] of a key whose lookup yields a stale entry, on a vault whose
    gate denies, does not always return [ErrNotFound]. On [stepback_vault]
    (TTL 10 ns, no source, so the gate denies) the store holds under "k"
    an entry created at instant 100. The first evaluation of [expired],
    at line 140, reads the clock at 500 and judges the entry stale, so it
    is not returned; the second, at line 144, reads the clock at 105,
    set back in between, and judges it fresh, so [miss] is false and line
    146 returns [Entry{}] with the nil error of the lookup: neither the
    entry nor [ErrNotFound]. *)
Theorem Get_stale_denied_returns_nil :
  let v := stepback_vault in
  let w := stepback_world in
  let e := mkEntry "k" "old" 100 "manual" in
  sources v = []
  ∧ fst (shouldAutoRefresh v w) = false
  ∧ fst (store_Get (store v) "k" (backing w)) = (e, None)
  ∧ fst (expired v e w) = true
  ∧ fst (expired v e (snd (expired v e w))) = false
  ∧ fst (Get v "k" w) = (Entry_zero, None)
  ∧ snd (fst (Get v "k" w)) ≠ Some ErrNotFound
  ∧ calls (snd (Get v "k" w)) = calls w ++ [CallGet "k" (e, None)].
Proof. repeat split. discriminate. Qed.

Lemma Get_gate_denies_NotFound_witness :
  let v := stale_vault in
  let w := throttled_world in
  let e := mkEntry "k" "old" 100 "manual" in
  store_Get (store v) "k" (backing w) = ((e, None), backing w)
  ∧ fst (Get v "k" w) = (Entry_zero, Some ErrNotFound)
  ∧ calls (snd (Get v "k" w)) = calls w ++ [CallGet "k" (e, None)].
Proof.
  intros v w e. split; [reflexivity |].
  pose (w1 := mkWorld (backing w) (remote w) (clock w) (ticks w)
                      (lastRefresh w) (calls w ++ [CallGet "k" (e, None)])).
  destruct (Get_gate_denies_NotFound v "k" w e None (backing w)
              (snd (expired v e (snd (expired v e w1)))) eq_refl)
    as (Hres & Hcalls & _).
  - right. split; [reflexivity |].
    exists (snd (expired v e w1)). split; reflexivity.
  - left. reflexivity.
  - split; [exact Hres | exact Hcalls].
Defined.

(** C5, as first stated, fails: the error of the store reaches the caller
    of [Get] as it is, and is no [fmt.Errorf] wrapping of anything. *)
Lemma Get_store_error_not_wrapped :
  let v := broken_vault in
  let w := World_init [] in
  fst (store_Get (store v) "any" (backing w)) = (Entry_zero, Some errBroken)
  ∧ errors_Is (Some errBroken) ErrNotFound = false
  ∧ snd (fst (Get v "any" w)) = Some errBroken
  ∧ ¬ ∃ format operands cause,
        snd (fst (Get v "any" w)) = Some (Errorf format operands cause).
Proof.
  repeat split. intros (format & operands & cause & H). discriminate H.
Qed.

Lemma Get_store_error_verbatim_witness :
  let v := broken_vault in
  let w := World_init [] in
  (store_Get (store v) "any" (backing w) = ((Entry_zero, Some errBroken), ∅)
   ∧ errors_Is (Some errBroken) ErrNotFound = false)
  ∧ fst (Get v "any" w) = (Entry_zero, Some errBroken)
  ∧ errors_Is (snd (fst (Get v "any" w))) errBroken = true.
Proof.
  intros v w. split; [split; reflexivity |].
  destruct (Get_store_error_verbatim v "any" w Entry_zero errBroken ∅
              eq_refl eq_refl) as [Hget His].
  split; [by rewrite Hget | exact His].
Defined.

Lemma Refresh_order_overwrite_witness :
  let v := overwrite_vault in
  let w := World_init [100%positive] in
  let A := counting_source [mkEntry "k" "from-A" 0 "A"] in
  let B := counting_source [mkEntry "k" "from-B" 7 "B"] in
  (store v = Memory_Store (fst NewMemory) ∧ fst (Refresh v w) = None)
  ∧ sources v = [A; B]
  ∧ remote (snd (Refresh v w)) = 2%nat
  ∧ calls (snd (Refresh v w))
    = [CallFetch 0 ([mkEntry "k" "from-A" 0 "A"], None);
       CallSet (mkEntry "k" "from-A" 100 "A") None;
       CallFetch 1 ([mkEntry "k" "from-B" 7 "B"], None);
       CallSet (mkEntry "k" "from-B" 100 "B") None]
  ∧ fst (Memory_Get (fst NewMemory) "k" (backing (snd (Refresh v w))))
    = (mkEntry "k" "from-B" 100 "B", None).
Proof.
  intros v w A B. split; [split; reflexivity |].
  split; [reflexivity |].
  destruct (Refresh_order_overwrite (fst NewMemory) v w eq_refl eq_refl)
    as (_ & _ & _ & Hx & Hcalls & _ & _ & Hlast).
  split; [exact Hx |]. split; [exact Hcalls |].
  apply (Hlast [A] B [] [] (mkEntry "k" "from-B" 7 "B"));
    [reflexivity | reflexivity |].
  intros e' He'. by apply elem_of_nil in He'.
Defined.

(** C9. A state reached by one [Set] on a new vault with a TTL of 10 ns
    and one source, in which [Get] returns a stale entry with a nil error:
    the entry of key "k" is 400 ns old when [Get] judges it, the gate
    permits, the refresh goes well (it moves [lastRefresh]) and its one
    source supplies key "j" only, and the second lookup hands the entry of
    key "k" back as the result, 402 ns old. *)
Theorem Get_returns_stale_entry :
  let v := stale_vault in
  let w := stale_world in
  let e := mkEntry "k" "old" 100 "manual" in
  let j := mkEntry "j" "fresh" 0 "src" in
  let looked := CallGet "k" (e, None) in
  let w1 := mkWorld (backing w) (remote w) (clock w) (ticks w)
                    (lastRefresh w) (calls w ++ [looked]) in
  let w2 := snd (expired v e (snd (expired v e w1))) in
  0 < ttl v
  ∧ fst (store_Get (store v) "k" (backing w)) = (e, None)
  ∧ fst (expired v e w1) = true
  ∧ fst (expired v e (snd (expired v e w1))) = true
  ∧ fst (shouldAutoRefresh v w2) = true
  ∧ fst (Refresh v (snd (shouldAutoRefresh v w2))) = None
  ∧ calls (snd (Get v "k" w))
    = calls w ++ [looked; CallFetch 0 ([j], None);
                  CallSet (with_CreatedAt j 502) None; looked]
  ∧ lastRefresh w = 0 ∧ lastRefresh (snd (Get v "k" w)) = 502
  ∧ fst (Get v "k" w) = (e, None)
  ∧ ttl v < Sub 502 (CreatedAt e).
Proof. repeat split. Qed.

(** *** The tests of the repository, on the embedding *)

(** [TestGet_cacheMiss_noSource]. *)
Example test_Get_cacheMiss_noSource :
  fst (Get (vault_New (Ext:=nat) []) "nope" (World_init []))
  = (Entry_zero, Some ErrNotFound).
Proof. reflexivity. Qed.

(** [TestSet_populatesDefaults]. *)
Example test_Set_populatesDefaults :
  let v := vault_New (Ext:=nat) [] in
  let w := snd (vault_Set v (mkEntry "k" "v" 0 "") (World_init [100%positive])) in
  fst (Get v "k" w) = (mkEntry "k" "v" 100 "manual", None).
Proof. reflexivity. Qed.

(** [TestGet_expired_autoRefresh]: a seeded entry one hour old, a TTL of
    one millisecond, a source with a new value. *)
Example test_Get_expired_autoRefresh :
  let seed := mkEntry "stale" "old" 1000 "seed" in
  let src := counting_source [mkEntry "stale" "fresh" 0 "mock"] in
  let v := vault_New [WithStore (Memory_StoreValue (fst NewMemory));
                      WithSource src; WithTTL 1000000] in
  let now := 3600000001000%positive in
  let w := mkWorld (snd (Memory_Set (fst NewMemory) seed ∅)) 0%nat
                   (clock_of [now; now; now]) 0 0 [] in
  fst (Get v "stale" w) = (mkEntry "stale" "fresh" (Z.pos now) "mock", None)
  ∧ remote (snd (Get v "stale" w)) = 1%nat.
Proof. split; reflexivity. Qed.

(** [TestRefresh_sourceError], with a source ahead of the failing one and
    a source after it. *)
Example test_Refresh_sourceError :
  let w := World_init [100%positive] in
  let r := Refresh partial_vault w in
  fst r = Some (Errorf "vault: refresh: %w" [] errFetch)
  ∧ errors_Is (fst r) errFetch = true
  ∧ lastRefresh (snd r) = 0
  ∧ remote (snd r) = 2%nat
  ∧ fst (Memory_Get (fst NewMemory) "a" (backing (snd r)))
    = (mkEntry "a" "1" 100 "first", None)
  ∧ fst (Memory_Get (fst NewMemory) "c" (backing (snd r)))
    = (Entry_zero, Some ErrNotFound).
Proof. repeat split. Qed.

(** [TestAutoRefresh_onlyOnceWithoutTTL]. *)
Example test_AutoRefresh_onlyOnceWithoutTTL :
  let src := counting_source [mkEntry "exists" "yes" 0 "src"] in
  let v := vault_New [WithSource src] in
  let r1 := Get v "exists" (World_init [100; 200]%positive) in
  let r2 := Get v "missing" (snd r1) in
  snd (fst r1) = None ∧ remote (snd r1) = 1%nat
  ∧ snd (fst r2) = Some ErrNotFound ∧ remote (snd r2) = 1%nat.
Proof. repeat split. Qed.

(** [TestAutoRefresh_retriggersAfterTTL]. *)
Example test_AutoRefresh_retriggersAfterTTL :
  let src := counting_source [mkEntry "k" "v" 0 "src"] in
  let v := vault_New [WithSource src; WithTTL 1000000] in
  let r1 := Get v "k" (World_init [100; 5000100; 5000101; 5000102;
                                   5000103]%positive) in
  let r2 := Get v "k" (snd r1) in
  snd (fst r1) = None ∧ remote (snd r1) = 1%nat
  ∧ snd (fst r2) = None ∧ remote (snd r2) = 2%nat.
Proof. repeat split. Qed.

(** [TestNamespace_scopesStore]: two namespaced vaults over one store. *)
Example test_Namespace_scopesStore :
  let shared := Memory_StoreValue (fst NewMemory) in
  let prod := vault_New (Ext:=nat) [WithStore shared; WithNamespace "prod"] in
  let qa := vault_New (Ext:=nat) [WithStore shared; WithNamespace "qa"] in
  let w1 := snd (vault_Set prod (mkEntry "db" "prod-host" 0 "")
                           (World_init [100; 200]%positive)) in
  let w2 := snd (vault_Set qa (mkEntry "db" "qa-host" 0 "") w1) in
  Value (fst (fst (Get prod "db" w2))) = "prod-host"
  ∧ Value (fst (fst (Get qa "db" w2))) = "qa-host".
Proof. split; reflexivity. Qed.

(** * Further facts *)

(** ** memory.go: [Delete] and [List] *)

Lemma Memory_Get_found (m : Memory) (key : string) (st : memoryState)
    (e : Entry) :
  fst (Memory_Get m key st) = (e, None) ↔ st !! (prefix m +:+ key) = Some e.
Proof.
  unfold Memory_Get. destruct (st !! (prefix m +:+ key)) as [e'|]; simpl.
  - split; [by intros [= ->] | by intros [= ->]].
  - split; discriminate.
Qed.

Lemma substring_prefix (p key : string) :
  String.substring 0 (String.length p) (p +:+ key) = p.
Proof. induction p as [|c p IH]; simpl; [by destruct key | by rewrite IH]. Qed.

Lemma substring_prefix_inv (p k : string) :
  String.substring 0 (String.length p) k = p → ∃ key, k = p +:+ key.
Proof.
  revert k. induction p as [|c p IH]; intros k H.
  { by exists k. }
  destruct k as [|c' k]; [discriminate |].
  simpl in H. injection H as -> H. apply IH in H as [key ->]. by exists key.
Qed.

(** The test of the loop of [List] holds of a slot exactly when the slot
    is the prefix of the handle followed by a key, a non-empty one when
    the handle is scoped. *)
Lemma in_scope_iff (m : Memory) (k : string) :
  in_scope m k = true
  ↔ ∃ key, k = prefix m +:+ key ∧ (prefix m = "" ∨ key ≠ "").
Proof.
  unfold in_scope. rewrite orb_true_iff, andb_true_iff, !bool_decide_eq_true.
  rewrite Nat.ltb_lt. split.
  - intros [Hroot | [Hlen Hsub]].
    + exists k. rewrite Hroot. split; [done | by left].
    + apply substring_prefix_inv in Hsub as [key ->]. exists key.
      split; [done |]. right. intros ->.
      rewrite String_length_app in Hlen. simpl in Hlen. lia.
  - intros (key & -> & [Hroot | Hkey]); [by left |]. right. split.
    + rewrite String_length_app. destruct key; [done | simpl; lia].
    + apply substring_prefix.
Qed.

(** The entries of the list of a handle are those the handle holds under
    a key, the empty key of a scoped handle set aside. *)
Lemma Memory_List_elem (m : Memory) (st : memoryState) (e : Entry) :
  e ∈ fst (fst (Memory_List m st))
  ↔ ∃ key, (prefix m = "" ∨ key ≠ "")
           ∧ fst (Memory_Get m key st) = (e, None).
Proof.
  unfold Memory_List. simpl.
  rewrite list_elem_of_fmap. split.
  - intros ([k e'] & -> & Hin). apply list_elem_of_filter in Hin as [Hscope Hin].
    apply elem_of_map_to_list in Hin. simpl in *.
    apply in_scope_iff in Hscope as (key & -> & Hkey).
    exists key. split; [done |]. by apply Memory_Get_found.
  - intros (key & Hkey & Hget). apply Memory_Get_found in Hget.
    exists (prefix m +:+ key, e). split; [done |].
    apply list_elem_of_filter. split.
    + simpl. apply in_scope_iff. by exists key.
    + by apply elem_of_map_to_list.
Qed.

(** X1. [List] through a handle returns exactly the entries that [Get]
    through the same handle returns for some key, except that a scoped
    handle leaves out the entry of the empty key. It never fails and
    leaves the map as it is. *)
Theorem Memory_List_Get (m : Memory) (st : memoryState) (e : Entry) :
  (e ∈ fst (fst (Memory_List m st))
   ↔ ∃ key, (prefix m = "" ∨ key ≠ "")
            ∧ fst (Memory_Get m key st) = (e, None))
  ∧ snd (fst (Memory_List m st)) = None
  ∧ snd (Memory_List m st) = st.
Proof. split; [apply Memory_List_elem | done]. Qed.

(** X2. An entry with the empty key, set through a scoped handle, is
    returned by [Get] of the empty key through that handle, but [List]
    through that handle lists the same entries as before the write. *)
Theorem Memory_List_misses_empty_key (m : Memory) (ns : string)
    (entry : Entry) (st : memoryState) :
  Key entry = "" →
  let view := Memory_WithNamespace m ns in
  let st' := snd (Memory_Set view entry st) in
  fst (Memory_Get view "" st') = (entry, None)
  ∧ ∀ e, e ∈ fst (fst (Memory_List view st'))
         ↔ e ∈ fst (fst (Memory_List view st)).
Proof.
  intros Hkey view st'. split.
  { subst st'. rewrite <- Hkey. apply Memory_Get_Set_same. }
  intros e.
  rewrite (Memory_List_elem view st' e).
  rewrite (Memory_List_elem view st e).
  assert (∀ key, key ≠ "" →
            fst (Memory_Get view key st') = fst (Memory_Get view key st))
    as Hsame.
  { intros key Hne. apply Memory_Get_Set_other. rewrite Hkey. intros H.
    apply (inj (String.append (prefix view))) in H. by apply Hne. }
  assert (prefix view ≠ "") as Hscoped by (simpl; by destruct ns).
  split; intros (key & [Hroot | Hne] & Hget); try (by destruct Hscoped);
    exists key; (split; [by right |]).
  - by rewrite <- Hsame.
  - by rewrite Hsame.
Qed.

Lemma Memory_List_misses_empty_key_witness :
  let view := Memory_WithNamespace (fst NewMemory) "ns" in
  let entry := mkEntry "" "v" 7 "seed" in
  let st' := snd (Memory_Set view entry ∅) in
  Key entry = ""
  ∧ fst (Memory_Get view "" st') = (entry, None)
  ∧ ∀ e, e ∈ fst (fst (Memory_List view st'))
         ↔ e ∈ fst (fst (Memory_List view ∅)).
Proof.
  intros view entry st'. split; [reflexivity |].
  apply (Memory_List_misses_empty_key (fst NewMemory) "ns" entry ∅).
  reflexivity.
Defined.

(** X3. [List] through the unscoped handle is not scoped at all: it
    returns every entry of the map, those written through namespaced
    views included. *)
Theorem Memory_List_unscoped_all (m : Memory) (st : memoryState) (e : Entry) :
  prefix m = "" →
  (e ∈ fst (fst (Memory_List m st)) ↔ ∃ slot, st !! slot = Some e)
  ∧ ∀ ns entry,
      entry ∈ fst (fst (Memory_List m
                 (snd (Memory_Set (Memory_WithNamespace m ns) entry st)))).
Proof.
  intros Hroot. split.
  - rewrite (Memory_List_elem m st e). split.
    + intros (key & _ & Hget). apply Memory_Get_found in Hget. eauto.
    + intros [slot Hslot]. exists slot. split; [by left |].
      apply Memory_Get_found. by rewrite Hroot.
  - intros ns entry.
    apply Memory_List_elem.
    exists (prefix (Memory_WithNamespace m ns) +:+ Key entry).
    split; [by left |]. apply Memory_Get_found. rewrite Hroot. simpl.
    apply lookup_insert_eq.
Qed.

Lemma Memory_List_unscoped_all_witness :
  let m := fst NewMemory in
  let entry := mkEntry "host" "prod.db" 7 "seed" in
  prefix m = ""
  ∧ entry ∈ fst (fst (Memory_List m
               (snd (Memory_Set (Memory_WithNamespace m "prod") entry ∅)))).
Proof.
  intros m entry. split; [reflexivity |].
  destruct (Memory_List_unscoped_all m ∅ entry eq_refl) as [_ H].
  apply (H "prod" entry).
Defined.

(** X4. After [Delete] through a handle, [Get] of that key through the
    handle is [ErrNotFound]; a read of any other slot is as before.
    [Delete] returns nil also for a key that is not there, and then leaves
    the map as it is, so that deleting twice is deleting once. *)
Theorem Memory_Delete_Get (m : Memory) (key : string) (st : memoryState) :
  let st' := snd (Memory_Delete m key st) in
  fst (Memory_Delete m key st) = None
  ∧ fst (Memory_Get m key st') = (Entry_zero, Some ErrNotFound)
  ∧ (∀ m' key', prefix m' +:+ key' ≠ prefix m +:+ key →
                fst (Memory_Get m' key' st') = fst (Memory_Get m' key' st))
  ∧ (fst (Memory_Get m key st) = (Entry_zero, Some ErrNotFound) → st' = st)
  ∧ snd (Memory_Delete m key st') = st'.
Proof.
  intros st'. subst st'. unfold Memory_Delete, Memory_Get. simpl.
  repeat split.
  - by rewrite lookup_delete_eq.
  - intros m' key' Hne. rewrite lookup_delete_ne by done.
    by destruct (st !! _).
  - destruct (st !! (prefix m +:+ key)) eqn:Hlook; [discriminate |].
    intros _. by apply delete_id.
  - apply delete_id. apply lookup_delete_eq.
Qed.

(** X5. [Set] and then [Delete] of the same key through one handle gives
    back the map as it was, when the key was not there before. *)
Theorem Memory_Set_Delete (m : Memory) (entry : Entry) (st : memoryState) :
  fst (Memory_Get m (Key entry) st) = (Entry_zero, Some ErrNotFound) →
  snd (Memory_Delete m (Key entry) (snd (Memory_Set m entry st))) = st.
Proof.
  unfold Memory_Get, Memory_Set, Memory_Delete. simpl.
  destruct (st !! (prefix m +:+ Key entry)) eqn:Hlook; [discriminate |].
  intros _. rewrite delete_insert_eq. by apply delete_id.
Qed.

Lemma Memory_Set_Delete_witness :
  let m := fst NewMemory in
  let entry := mkEntry "k" "v" 7 "seed" in
  fst (Memory_Get m (Key entry) ∅) = (Entry_zero, Some ErrNotFound)
  ∧ snd (Memory_Delete m (Key entry) (snd (Memory_Set m entry ∅))) = ∅.
Proof.
  intros m entry. split; [reflexivity |].
  apply (Memory_Set_Delete m entry ∅). reflexivity.
Defined.

(** The slots of two separator-free namespaces never meet. *)
Lemma separator_free_slot (A B x y : string) :
  separator_free A = true → separator_free B = true →
  (A +:+ "/") +:+ x = (B +:+ "/") +:+ y → A = B.
Proof.
  revert B. induction A as [|a A IH]; intros [|b B] HA HB H; simpl in *.
  - done.
  - injection H as <- _. by rewrite bool_decide_eq_true_2 in HB.
  - injection H as -> _. by rewrite bool_decide_eq_true_2 in HA.
  - injection H as -> H.
    apply andb_true_iff in HA as [_ HA]. apply andb_true_iff in HB as [_ HB].
    f_equal. by apply IH.
Qed.

(** X6. Two namespaces whose names hold no separator are isolated for
    every pair of keys, also keys that hold a separator: a [Set] or a
    [Delete] through the view of one changes neither what [Get] returns
    through the view of the other nor which entries [List] returns
    through it. *)
Theorem Memory_separator_free_isolation (m : Memory) (A B : string)
    (st : memoryState) (entry : Entry) (key key' : string) :
  separator_free A = true →
  separator_free B = true →
  A ≠ B →
  let a := Memory_WithNamespace m A in
  let b := Memory_WithNamespace m B in
  let set := snd (Memory_Set a entry st) in
  let deleted := snd (Memory_Delete a key st) in
  fst (Memory_Get b key' set) = fst (Memory_Get b key' st)
  ∧ fst (Memory_Get b key' deleted) = fst (Memory_Get b key' st)
  ∧ (∀ e, e ∈ fst (fst (Memory_List b set))
          ↔ e ∈ fst (fst (Memory_List b st)))
  ∧ (∀ e, e ∈ fst (fst (Memory_List b deleted))
          ↔ e ∈ fst (fst (Memory_List b st))).
Proof.
  intros HA HB Hne a b set deleted.
  assert (∀ k k', prefix a +:+ k ≠ prefix b +:+ k') as Hslot.
  { intros k k' H. apply Hne. by eapply separator_free_slot. }
  assert (∀ k', fst (Memory_Get b k' set) = fst (Memory_Get b k' st)) as Hset.
  { intros k'. apply Memory_Get_Set_other. apply Hslot. }
  assert (∀ k', fst (Memory_Get b k' deleted) = fst (Memory_Get b k' st))
    as Hdel.
  { intros k'. subst deleted. unfold Memory_Get, Memory_Delete. simpl.
    rewrite lookup_delete_ne; [by destruct (st !! _) |]. apply Hslot. }
  split; [apply Hset |]. split; [apply Hdel |].
  split; intros e.
  - rewrite (Memory_List_elem b set e), (Memory_List_elem b st e).
    split; intros (k' & Hk & Hget); exists k'; (split; [done |]).
    + by rewrite <- Hset.
    + by rewrite Hset.
  - rewrite (Memory_List_elem b deleted e), (Memory_List_elem b st e).
    split; intros (k' & Hk & Hget); exists k'; (split; [done |]).
    + by rewrite <- Hdel.
    + by rewrite Hdel.
Qed.

Lemma Memory_separator_free_isolation_witness :
  let m := fst NewMemory in
  let st := snd (Memory_Set (Memory_WithNamespace m "qa")
                            (mkEntry "db/host" "qa.db" 7 "seed") ∅) in
  let entry := mkEntry "db/host" "prod.db" 7 "seed" in
  (separator_free "prod" = true ∧ separator_free "qa" = true
   ∧ "prod" ≠ "qa")
  ∧ fst (Memory_Get (Memory_WithNamespace m "qa") "db/host"
           (snd (Memory_Set (Memory_WithNamespace m "prod") entry st)))
    = fst (Memory_Get (Memory_WithNamespace m "qa") "db/host" st).
Proof.
  intros m st entry. split; [repeat split; discriminate |].
  destruct (Memory_separator_free_isolation m "prod" "qa" st entry
              "db/host" "db/host" eq_refl eq_refl) as [H _];
    [discriminate | exact H].
Defined.

Lemma Memory_List_length (m : Memory) (st : memoryState) :
  length (fst (fst (Memory_List m st)))
  = length (filter (λ kv, in_scope m (fst kv) = true) (map_to_list st)).
Proof. unfold Memory_List. simpl. apply length_fmap. Qed.

(** X7. [Set] is an upsert as [List] sees it: writing a key that the
    handle does not hold makes the list of the handle one entry longer,
    writing a key that it holds leaves the length as it is (the empty key
    through a scoped handle, which [List] never shows, set aside). *)
Theorem Memory_Set_List_length (m : Memory) (entry : Entry)
    (st : memoryState) :
  prefix m = "" ∨ Key entry ≠ "" →
  let before := fst (fst (Memory_List m st)) in
  let after := fst (fst (Memory_List m (snd (Memory_Set m entry st)))) in
  (fst (Memory_Get m (Key entry) st) = (Entry_zero, Some ErrNotFound) →
   length after = S (length before))
  ∧ (∀ old, fst (Memory_Get m (Key entry) st) = (old, None) →
            length after = length before).
Proof.
  intros Hkey before after. subst before after.
  rewrite !Memory_List_length.
  assert (in_scope m (prefix m +:+ Key entry) = true) as Hscope.
  { apply in_scope_iff. by exists (Key entry). }
  unfold Memory_Set, Memory_Get. simpl. split.
  - destruct (st !! (prefix m +:+ Key entry)) eqn:Hlook; [discriminate |].
    intros _. rewrite (map_to_list_insert st _ entry Hlook).
    by rewrite filter_cons_True.
  - intros old. destruct (st !! (prefix m +:+ Key entry)) eqn:Hlook;
      [| discriminate].
    intros _. rewrite <- (insert_delete_eq st).
    rewrite (map_to_list_insert (delete _ st) _ entry)
      by apply lookup_delete_eq.
    rewrite <- (map_to_list_delete st _ _ Hlook).
    by rewrite !filter_cons_True.
Qed.

Lemma Memory_Set_List_length_witness :
  let m := Memory_WithNamespace (fst NewMemory) "prod" in
  let e1 := mkEntry "a" "1" 7 "seed" in
  let e2 := mkEntry "a" "2" 8 "seed" in
  let st1 := snd (Memory_Set m e1 ∅) in
  (prefix m = "" ∨ Key e2 ≠ "")
  ∧ length (fst (fst (Memory_List m (snd (Memory_Set m e2 st1)))))
    = length (fst (fst (Memory_List m st1))).
Proof.
  intros m e1 e2 st1. split; [by right |].
  pose proof (Memory_Set_List_length m e2 st1) as H.
  destruct H as [_ Hold]; [right; discriminate |].
  apply (Hold e1). vm_compute. reflexivity.
Defined.

(** ** vault.go: how the operations compose *)

Section EngineMore.

Context {St Ext : Type}.
Implicit Types (v : vault St Ext) (w : World St Ext).

(** [Get] when the lookup finds an entry that [expired] does not reject. *)
Lemma Get_hit v (key : string) w (e : Entry) (st' : St) :
  store_Get (store v) key (backing w) = ((e, None), st') →
  let w1 := mkWorld st' (remote w) (clock w) (ticks w) (lastRefresh w)
                    (calls w ++ [CallGet key (e, None)]) in
  fst (expired v e w1) = false →
  Get v key w = ((e, None), snd (expired v e w1)).
Proof.
  intros Hget w1 Hfresh. unfold Get. run. rewrite Hget. fold w1.
  destruct (expired v e w1) as [b w2]. simpl in *. by subst b.
Qed.

Lemma expired_frame v (e : Entry) w :
  let w' := snd (expired v e w) in
  backing w' = backing w ∧ remote w' = remote w ∧ clock w' = clock w
  ∧ lastRefresh w' = lastRefresh w ∧ calls w' = calls w.
Proof. rewrite expired_eq. by destruct (ttl v <=? 0). Qed.

(** X8. When a [Refresh] that [Get] started fails, [Get] returns the error
    of that refresh with [Entry{}]: it does not fall back on the stale
    entry the store holds. [lastRefresh] is as before, and the error wraps
    the error of the source or of the store that failed. *)
Theorem Get_refresh_error v (key : string) w (e : Entry)
    (err : option error) (st' : St) (w2 : World St Ext) (rerr : error) :
  store_Get (store v) key (backing w) = ((e, err), st') →
  let w1 := mkWorld st' (remote w) (clock w) (ticks w) (lastRefresh w)
                    (calls w ++ [CallGet key (e, err)]) in
  (errors_Is err ErrNotFound = true ∧ w2 = w1)
  ∨ (err = None
     ∧ ∃ wm, expired v e w1 = (true, wm) ∧ expired v e wm = (true, w2)) →
  fst (shouldAutoRefresh v w2) = true →
  fst (Refresh v (snd (shouldAutoRefresh v w2))) = Some rerr →
  fst (Get v key w) = (Entry_zero, Some rerr)
  ∧ lastRefresh (snd (Get v key w)) = lastRefresh w
  ∧ ∃ cause, errors_Is (Some rerr) cause = true
             ∧ (rerr = Errorf "vault: refresh: %w" [] cause
                ∨ ∃ k, rerr = Errorf "vault: refresh: set %q: %w" [k] cause).
Proof.
  intros Hget w1 Hmiss Hgo Hfail.
  rewrite (Get_miss v key w e err st' w2 Hget Hmiss).
  pose proof (shouldAutoRefresh_frame v w2) as (_ & _ & _ & Hl3 & _).
  destruct (shouldAutoRefresh v w2) as [go w3]. simpl in *. subst go.
  pose proof (Refresh_log v w3) as (_ & _ & news & _ & _ & Hr).
  destruct (Refresh v w3) as [r w4]. simpl in *. subst r.
  destruct Hr as (Hl4 & fetched & tail & cause & _ & _ & Htail).
  split; [done |]. split.
  - simpl. rewrite Hl4, Hl3.
    destruct Hmiss as [[_ ->] | (_ & wm & H1 & H2)]; [done |].
    pose proof (expired_frame v e w1) as (_ & _ & _ & Ha & _).
    pose proof (expired_frame v e wm) as (_ & _ & _ & Hb & _).
    rewrite H1 in Ha. rewrite H2 in Hb. simpl in *. congruence.
  - exists cause. split; [by eapply failing_tail_Is |].
    destruct Htail as [(? & _ & ->) | (done & e' & rest & _ & ->)];
      [by left | right; by eexists].
Qed.

(** X9. A [Refresh] that has returned nil closes the gate: the gate
    permits again only for a vault with a source and a TTL above zero,
    and only once the clock reads more than the TTL past the instant of
    that refresh. With a TTL of zero or below it stays closed. *)
Theorem Refresh_closes_gate v w :
  fst (Refresh v w) = None →
  let w' := snd (Refresh v w) in
  let elapsed := Sub (Z.pos (clock w (S (ticks w)))) (Z.pos (clock w (ticks w))) in
  fst (shouldAutoRefresh v w') = true
  ↔ sources v ≠ [] ∧ 0 < ttl v ∧ ttl v < elapsed.
Proof.
  intros Hok w' elapsed.
  pose proof (Refresh_log v w) as (Hclk & Htk & news & _ & _ & Hr).
  rewrite Hok in Hr. destruct Hr as [Hlast _]. fold w' in Hclk, Htk, Hlast.
  unfold shouldAutoRefresh. run.
  destruct (sources v) as [|src srcs]; cbn [length Nat.eqb].
  { split; [discriminate | by intros [? _]]. }
  cbn beta. rewrite Hlast. cbn [IsZero Z.eqb].
  destruct (Z.ltb_spec 0 (ttl v)); cbn beta iota; cbn [fst].
  - rewrite Hclk, Htk. fold elapsed. rewrite Z.ltb_lt.
    split; [by intros ? | by intros (_ & _ & ?)].
  - split; [discriminate | lia].
Qed.

Lemma Get_quiet v (key : string) w :
  sources v = [] ∨ (ttl v ≤ 0 ∧ IsZero (lastRefresh w) = false) →
  let w' := snd (Get v key w) in
  remote w' = remote w ∧ lastRefresh w' = lastRefresh w
  ∧ ∃ res, calls w' = calls w ++ [CallGet key res].
Proof.
  intros Hquiet w'.
  assert (∃ wx, snd (Get v key w) = wx
                ∧ remote wx = remote w ∧ lastRefresh wx = lastRefresh w
                ∧ ∃ res, calls wx = calls w ++ [CallGet key res])
    as (wx & Hwx & H); [| by subst w' wx].
  clear w'. unfold Get.
  unfold mbind at 1. unfold M_bind at 1. unfold on_store at 1. cbn beta.
  destruct (store_Get (store v) key (backing w)) as [[e err] st'] eqn:Hget.
  set (w1 := mkWorld st' (remote w) (clock w) (ticks w) (lastRefresh w)
                     (calls w ++ [CallGet key (e, err)])).
  assert (∀ wx, remote wx = remote w → lastRefresh wx = lastRefresh w →
                calls wx = calls w ++ [CallGet key (e, err)] →
                fst (shouldAutoRefresh v wx) = false
                ∧ remote (snd (shouldAutoRefresh v wx)) = remote w
                ∧ lastRefresh (snd (shouldAutoRefresh v wx)) = lastRefresh w
                ∧ calls (snd (shouldAutoRefresh v wx))
                  = calls w ++ [CallGet key (e, err)]) as Hgate.
  { intros wx Hr Hl Hc.
    pose proof (shouldAutoRefresh_frame v wx) as (_ & Hr' & _ & Hl' & Hc').
    split; [| repeat split; congruence].
    unfold shouldAutoRefresh. run.
    destruct Hquiet as [-> | [Httl Hset]]; [done |].
    destruct (length (sources v) =? 0)%nat; [done |].
    rewrite Hl, Hset. destruct (Z.ltb_spec 0 (ttl v)); [lia | done]. }
  pose proof (expired_frame v e w1) as (_ & Hr1 & _ & Hl1 & Hc1).
  assert (remote w1 = remote w) as Hr0 by reflexivity.
  assert (lastRefresh w1 = lastRefresh w) as Hl0 by reflexivity.
  assert (calls w1 = calls w ++ [CallGet key (e, err)]) as Hc0
    by reflexivity.
  assert (∀ wx : World St Ext,
            remote wx = remote w → lastRefresh wx = lastRefresh w →
            calls wx = calls w ++ [CallGet key (e, err)] →
            remote wx = remote w ∧ lastRefresh wx = lastRefresh w
            ∧ ∃ res, calls wx = calls w ++ [CallGet key res]) as Hdone.
  { intros wx ? ? ?. split; [done |]. split; [done |]. by eexists. }
  destruct err as [x|].
  - run. destruct (errors_Is (Some x) ErrNotFound); cbn [negb]; cbv iota.
    + destruct (Hgate w1 eq_refl eq_refl eq_refl) as (Hdeny & ? & ? & ?).
      destruct (shouldAutoRefresh v w1) as [go w3]. cbn [fst snd] in *.
      subst go. cbn [negb snd]. eexists. split; [reflexivity |].
      by apply Hdone.
    + cbn [snd]. eexists. split; [reflexivity |]. by apply Hdone.
  - run. destruct (expired v e w1) as [b wm] eqn:H1. cbn [fst snd] in *.
    destruct b; cbn [negb]; cbv iota;
      [| cbn [snd]; eexists; split; [reflexivity |]; by apply Hdone].
    pose proof (expired_frame v e wm) as (_ & Hr2 & _ & Hl2 & Hc2).
    cbn [errors_Is]. cbv beta iota.
    destruct (expired v e wm) as [b w2] eqn:H2. cbn [fst snd] in *.
    destruct b; cbn [negb]; cbv iota;
      [| cbn [snd]; eexists; split; [reflexivity |]; apply Hdone; congruence].
    destruct (Hgate w2) as (Hdeny & ? & ? & ?); try congruence.
    destruct (shouldAutoRefresh v w2) as [go w3]. cbn [fst snd] in *.
    subst go. cbn [negb snd]. eexists. split; [reflexivity |].
    by apply Hdone.
Qed.

Lemma Set_frame v (entry : Entry) w :
  let w' := snd (vault_Set v entry w) in
  remote w' = remote w ∧ lastRefresh w' = lastRefresh w
  ∧ ∃ res,
      calls w'
      = calls w ++ [CallSet (Set_stored (Z.pos (clock w (ticks w))) entry) res].
Proof.
  unfold vault_Set, Set_stored.
  destruct (IsZero (CreatedAt entry)); run;
    match goal with
    | |- context [store_Set ?s ?e ?st] => destruct (store_Set s e st)
    end; simpl; repeat split; by eexists.
Qed.

(** One call of a caller, on a vault whose gate cannot open, makes one
    call of the store and no other. *)
Lemma run_Op_quiet v (op : Op) w :
  sources v = [] ∨ (ttl v ≤ 0 ∧ IsZero (lastRefresh w) = false) →
  let w' := run_Op v w op in
  remote w' = remote w ∧ lastRefresh w' = lastRefresh w
  ∧ ∃ c, calls w' = calls w ++ [c] ∧ ∀ i res, c ≠ CallFetch i res.
Proof.
  intros Hquiet. destruct op as [key | entry | key |]; simpl.
  - destruct (Get_quiet v key w Hquiet) as (? & ? & res & ?).
    repeat split; try done. by eexists.
  - destruct (Set_frame v entry w) as (? & ? & res & ?).
    repeat split; try done. by eexists.
  - unfold Delete. run. destruct (store_Delete (store v) key (backing w)).
    simpl. repeat split; by eexists.
  - unfold List. run. destruct (store_List (store v) (backing w)).
    simpl. repeat split; by eexists.
Qed.

(** X10. On a vault with no source, and on a vault with a TTL of zero or
    below once [lastRefresh] is set, no sequence of [Get], [Set],
    [Delete] and [List] ever fetches from a source or moves
    [lastRefresh]: what the sources did not supply in the one refresh
    stays [ErrNotFound] until the caller calls [Refresh] itself. *)
Theorem no_refresh_without_ttl v (ops : list Op) w :
  sources v = [] ∨ (ttl v ≤ 0 ∧ IsZero (lastRefresh w) = false) →
  let w' := run_Ops v ops w in
  remote w' = remote w ∧ lastRefresh w' = lastRefresh w
  ∧ ∃ news, calls w' = calls w ++ news ∧ ∀ i res, CallFetch i res ∉ news.
Proof.
  revert w. induction ops as [|op ops IH]; intros w Hquiet.
  { simpl. repeat split. exists []. rewrite app_nil_r. split; [done |].
    intros i res H. by apply elem_of_nil in H. }
  destruct (run_Op_quiet v op w Hquiet) as (Hr & Hl & c & Hc & Hnf).
  destruct (IH (run_Op v w op)) as (Hr' & Hl' & news & Hc' & Hnf').
  { destruct Hquiet as [? | [? ?]]; [by left | right]. by rewrite Hl. }
  cbv zeta in *.
  change (run_Ops v (op :: ops) w) with (run_Ops v ops (run_Op v w op)).
  split; [congruence |]. split; [congruence |].
  exists (c :: news). split.
  - rewrite Hc', Hc, <- app_assoc. done.
  - intros i res Hin. apply elem_of_cons in Hin as [Heq | Hin].
    + by apply (Hnf i res).
    + by apply (Hnf' i res).
Qed.

(** *** options.go *)

Lemma keeps_store_fold (opts : list (Option St Ext)) (c : config St Ext) :
  Forall keeps_store opts →
  cfg_store (fold_left (λ c opt, opt c) opts c) = cfg_store c.
Proof.
  revert c. induction opts as [|o opts IH]; intros c Hall; [done |].
  apply Forall_cons in Hall as [Ho Hall]. simpl. by rewrite IH, Ho.
Qed.

(** Of the options of the package, [WithStore] alone touches the store. *)
Lemma keeps_store_options (s : SourceFunc Ext) (ns : string) (d : Duration) :
  keeps_store (WithSource (St:=St) s)
  ∧ keeps_store (WithNamespace (St:=St) (Ext:=Ext) ns)
  ∧ keeps_store (WithTTL (St:=St) (Ext:=Ext) d).
Proof. by repeat split. Qed.

(** X11. A namespace asked of a store that does not implement
    [Namespaced] is dropped without an error: the vault works on the
    store as it is, wherever [WithNamespace] stands among the options. *)
Theorem New_namespace_fallback (d s : StoreValue St)
    (opts opts' : list (Option St Ext)) :
  asNamespaced s = None →
  Forall keeps_store opts' →
  store (New d (opts ++ WithStore s :: opts')) = methods s.
Proof.
  intros Hplain Hkeep. unfold New. cbv zeta. cbn [store].
  rewrite fold_left_app. cbn [fold_left].
  rewrite !(keeps_store_fold opts' _ Hkeep). cbn [WithStore cfg_store].
  rewrite Hplain. by destruct (decide _).
Qed.

Lemma New_swap (d : StoreValue St) (pre post : list (Option St Ext))
    (o1 o2 : Option St Ext) :
  (∀ c, o2 (o1 c) = o1 (o2 c)) →
  New d (pre ++ o1 :: o2 :: post) = New d (pre ++ o2 :: o1 :: post).
Proof. intros H. unfold New. rewrite !fold_left_app. simpl. by rewrite H. Qed.

Lemma New_last (d : StoreValue St) (pre post : list (Option St Ext))
    (o1 o2 : Option St Ext) :
  (∀ c, o2 (o1 c) = o2 c) →
  New d (pre ++ o1 :: o2 :: post) = New d (pre ++ o2 :: post).
Proof. intros H. unfold New. rewrite !fold_left_app. simpl. by rewrite H. Qed.

(** X12. The vault [New] builds does not depend on the order of options
    of different kinds, anywhere in the list; of two adjacent [WithStore],
    [WithNamespace] or [WithTTL] the later one wins. (Two [WithSource]
    do not commute: see [New_WithSource].) *)
Theorem New_option_order (d : StoreValue St)
    (pre post : list (Option St Ext)) (s s' : StoreValue St)
    (src : SourceFunc Ext) (ns ns' : string) (t t' : Duration) :
  New d (pre ++ WithStore s :: WithSource src :: post)
  = New d (pre ++ WithSource src :: WithStore s :: post)
  ∧ New d (pre ++ WithStore s :: WithNamespace ns :: post)
    = New d (pre ++ WithNamespace ns :: WithStore s :: post)
  ∧ New d (pre ++ WithStore s :: WithTTL t :: post)
    = New d (pre ++ WithTTL t :: WithStore s :: post)
  ∧ New d (pre ++ WithSource src :: WithNamespace ns :: post)
    = New d (pre ++ WithNamespace ns :: WithSource src :: post)
  ∧ New d (pre ++ WithSource src :: WithTTL t :: post)
    = New d (pre ++ WithTTL t :: WithSource src :: post)
  ∧ New d (pre ++ WithNamespace ns :: WithTTL t :: post)
    = New d (pre ++ WithTTL t :: WithNamespace ns :: post)
  ∧ New d (pre ++ WithStore s :: WithStore s' :: post)
    = New d (pre ++ WithStore s' :: post)
  ∧ New d (pre ++ WithNamespace ns :: WithNamespace ns' :: post)
    = New d (pre ++ WithNamespace ns' :: post)
  ∧ New d (pre ++ WithTTL t :: WithTTL t' :: post)
    = New d (pre ++ WithTTL t' :: post).
Proof.
  repeat split; (apply New_swap || apply New_last); by intros [].
Qed.

End EngineMore.

(** ** The engine over the in-memory store, continued *)

Section MemoryEngineMore.

Context {Ext : Type}.
Implicit Types (v : vault memoryState Ext) (w : World memoryState Ext).

(** [Set] over a Memory store: what it returns and the world it leaves. *)
Lemma Set_Memory (m : Memory) v w (entry : Entry) :
  store v = Memory_Store m →
  let stored := Set_stored (Z.pos (clock w (ticks w))) entry in
  let w' := snd (vault_Set v entry w) in
  fst (vault_Set v entry w) = None
  ∧ backing w' = snd (Memory_Set m stored (backing w))
  ∧ remote w' = remote w ∧ clock w' = clock w
  ∧ lastRefresh w' = lastRefresh w
  ∧ calls w' = calls w ++ [CallSet stored None]
  ∧ Key stored = Key entry.
Proof.
  intros Hstore. unfold vault_Set, Set_stored. rewrite Hstore.
  destruct (IsZero (CreatedAt entry)); run; simpl;
    destruct (decide (Source entry = "")); simpl; repeat split.
Qed.

(** X13. Over a Memory store, an entry written with [Set] is what [Get]
    of its key returns next, with the defaults [Set] filled in, as long
    as the TTL is zero or below or the entry is no older than the TTL at
    that [Get]; no source is consulted. *)
Theorem Set_Get_roundtrip (m : Memory) v w (entry : Entry) :
  store v = Memory_Store m →
  let stored := Set_stored (Z.pos (clock w (ticks w))) entry in
  let w' := snd (vault_Set v entry w) in
  ttl v ≤ 0 ∨ Sub (Z.pos (clock w' (ticks w'))) (CreatedAt stored) ≤ ttl v →
  fst (vault_Set v entry w) = None
  ∧ fst (Get v (Key entry) w') = (stored, None)
  ∧ calls (snd (Get v (Key entry) w'))
    = calls w ++ [CallSet stored None; CallGet (Key entry) (stored, None)]
  ∧ remote (snd (Get v (Key entry) w')) = remote w
  ∧ lastRefresh (snd (Get v (Key entry) w')) = lastRefresh w.
Proof.
  intros Hstore stored w' Hfresh.
  destruct (Set_Memory m v w entry Hstore)
    as (Hnil & Hback & Hrem & Hclk & Hlast & Hcalls & Hkey).
  fold stored in Hback, Hcalls, Hkey. fold w' in Hback, Hrem, Hclk, Hlast, Hcalls.
  split; [done |].
  assert (store_Get (store v) (Key entry) (backing w')
          = ((stored, None), backing w')) as Hget.
  { rewrite Hstore, Hback, <- Hkey. cbn [store_Get Memory_Store].
    unfold Memory_Get, Memory_Set. cbn [snd]. by rewrite lookup_insert_eq. }
  set (w1 := mkWorld (backing w') (remote w') (clock w') (ticks w')
                     (lastRefresh w')
                     (calls w' ++ [CallGet (Key entry) (stored, None)])).
  assert (fst (expired v stored w1) = false) as Hexp.
  { rewrite expired_eq. destruct (Z.leb_spec (ttl v) 0); [done |].
    cbn [fst]. apply Z.ltb_ge. destruct Hfresh; [lia | done]. }
  rewrite (Get_hit v (Key entry) w' stored (backing w') Hget Hexp).
  fold w1. pose proof (expired_frame v stored w1) as (_ & Hr & _ & Hl & Hc).
  cbn [fst snd]. split; [done |]. rewrite Hc, Hr, Hl. cbn [calls remote lastRefresh w1].
  rewrite Hcalls, <- app_assoc. by repeat split.
Qed.

(** X14. Over a Memory store and with no source registered, [Delete]
    returns nil and the next [Get] of the key returns [ErrNotFound],
    whether the key was there or not. *)
Theorem Delete_Get_NotFound (m : Memory) v w (key : string) :
  store v = Memory_Store m →
  sources v = [] →
  fst (Delete v key w) = None
  ∧ fst (Get v key (snd (Delete v key w))) = (Entry_zero, Some ErrNotFound).
Proof.
  intros Hstore Hnone. unfold Delete. run. rewrite Hstore.
  cbn [store_Delete Memory_Store Memory_Delete fst snd].
  split; [done |].
  match goal with |- fst (Get v key ?wd) = _ => set (w' := wd) end.
  assert (store_Get (store v) key (backing w')
          = ((Entry_zero, Some ErrNotFound), backing w')) as Hget.
  { rewrite Hstore. cbn [store_Get Memory_Store backing w'].
    unfold Memory_Get. by rewrite lookup_delete_eq. }
  erewrite (Get_miss v key w' _ _ _ _ Hget); [| left; split; reflexivity].
  unfold shouldAutoRefresh. by rewrite Hnone.
Qed.

(** X15. [List] does no freshness filtering: over a Memory store, every
    entry the handle of the vault holds under a key is in the list,
    whatever the TTL and however old the entry; [List] reads no clock,
    consults no source and leaves [lastRefresh] alone. *)
Theorem List_returns_stale (m : Memory) v w (key : string) (e : Entry) :
  store v = Memory_Store m →
  fst (Memory_Get m key (backing w)) = (e, None) →
  prefix m = "" ∨ key ≠ "" →
  e ∈ fst (fst (List v w))
  ∧ snd (fst (List v w)) = None
  ∧ ticks (snd (List v w)) = ticks w
  ∧ remote (snd (List v w)) = remote w
  ∧ lastRefresh (snd (List v w)) = lastRefresh w
  ∧ backing (snd (List v w)) = backing w.
Proof.
  intros Hstore Hget Hkey. unfold List. run. rewrite Hstore.
  cbn [store_List Memory_Store].
  pose proof (Memory_List_elem m (backing w) e) as Hin.
  unfold Memory_List in *. cbn [fst snd] in *.
  repeat split. apply Hin. by exists key.
Qed.

(** X16. Over a Memory store, when the lookup is a miss, the gate permits
    and the refresh goes well, [Get] returns for a key that the source
    registered last supplied the entry of that source (the last one of
    that key in the list it returned), with the instant of the refresh as
    its [CreatedAt], whatever the sources registered ahead of it supplied
    for the key. The sources are [pre] followed by [B]; [B] returns its
    list in the state of the external systems that the sources [pre],
    fetched in the order registered, have left. *)
Theorem Get_resolves_from_last_source (m : Memory) v (key : string) w
    (e0 : Entry) (err : option error) (st' : memoryState)
    (w2 : World memoryState Ext) (pre : list (SourceFunc Ext))
    (B : SourceFunc Ext) (done rest : list Entry) (eb : Entry) :
  store v = Memory_Store m →
  store_Get (store v) key (backing w) = ((e0, err), st') →
  let w1 := mkWorld st' (remote w) (clock w) (ticks w) (lastRefresh w)
                    (calls w ++ [CallGet key (e0, err)]) in
  (errors_Is err ErrNotFound = true ∧ w2 = w1)
  ∨ (err = None
     ∧ ∃ wm, expired v e0 w1 = (true, wm) ∧ expired v e0 wm = (true, w2)) →
  fst (shouldAutoRefresh v w2) = true →
  let w3 := snd (shouldAutoRefresh v w2) in
  fst (Refresh v w3) = None →
  sources v = pre ++ [B] →
  fst (Fetch B (snd (run_fetches pre (remote w))))
  = (done ++ eb :: rest, None) →
  (∀ e', e' ∈ rest → Key e' ≠ Key eb) →
  Key eb = key →
  fst (Get v key w) = (with_CreatedAt eb (Z.pos (clock w3 (ticks w3))), None)
  ∧ remote (snd (Get v key w)) = snd (run_fetches (pre ++ [B]) (remote w)).
Proof.
  intros Hstore Hget w1 Hmiss Hgo w3 Hok Hsrcs HB Hrest Hkey.
  assert (remote w3 = remote w) as Hrem.
  { unfold w3. destruct (shouldAutoRefresh_frame v w2) as (_ & -> & _).
    destruct Hmiss as [[_ ->] | (_ & wm & H1 & H2)]; [done |].
    rewrite expired_eq in H1, H2.
    destruct (ttl v <=? 0); [discriminate |].
    injection H1 as _ <-. injection H2 as _ <-. done. }
  destruct (Refresh v w3) as [r w4] eqn:Hrun. cbn [fst snd] in *. subst r.
  rewrite (Get_requery v key w e0 err st' w2 w4 Hget Hmiss Hgo Hrun).
  pose proof (Refresh_last_wins m v w3 pre B done rest eb Hstore) as Hlast.
  pose proof (Refresh_spec v w3) as Hspec.
  rewrite Hrun, Hrem in Hlast. rewrite Hrun in Hspec.
  cbn [fst snd] in Hlast, Hspec.
  specialize (Hlast eq_refl Hsrcs HB Hrest).
  destruct Hspec as (news & _ & _ & _ & _ & _ & Hx & _).
  rewrite Hrem, Hsrcs in Hx.
  unfold on_store. rewrite Hstore. cbn [store_Get Memory_Store].
  rewrite <- Hkey.
  destruct (Memory_Get m (Key eb) (backing w4)) as [res st4].
  cbn [fst snd remote] in *. by subst res.
Qed.

End MemoryEngineMore.

(** ** The further facts, run *)

Lemma Get_refresh_error_witness :
  let v := down_vault in
  let w := down_world in
  let e := mkEntry "k" "old" 100 "manual" in
  store_Get (store v) "k" (backing w) = ((e, None), backing w)
  ∧ fst (Get v "k" w)
    = (Entry_zero, Some (Errorf "vault: refresh: %w" [] errFetch))
  ∧ lastRefresh (snd (Get v "k" w)) = lastRefresh w.
Proof.
  intros v w e. split; [reflexivity |].
  pose (w1 := mkWorld (backing w) (remote w) (clock w) (ticks w)
                      (lastRefresh w) (calls w ++ [CallGet "k" (e, None)])).
  destruct (Get_refresh_error v "k" w e None (backing w)
              (snd (expired v e (snd (expired v e w1))))
              (Errorf "vault: refresh: %w" [] errFetch) eq_refl)
    as (Hres & Hlast & _).
  - right. split; [reflexivity |].
    exists (snd (expired v e w1)). split; reflexivity.
  - reflexivity.
  - reflexivity.
  - split; [exact Hres | exact Hlast].
Defined.

Lemma Refresh_closes_gate_witness :
  let v := once_vault in
  let w := World_init [100; 200; 300]%positive in
  fst (Refresh v w) = None
  ∧ (fst (shouldAutoRefresh v (snd (Refresh v w))) = true
     ↔ sources v ≠ [] ∧ 0 < ttl v
       ∧ ttl v < Sub (Z.pos (clock w (S (ticks w))))
                     (Z.pos (clock w (ticks w)))).
Proof.
  intros v w. split; [reflexivity |].
  apply (Refresh_closes_gate v w). reflexivity.
Defined.

Lemma no_refresh_without_ttl_witness :
  let v := once_vault in
  let w := once_world in
  let ops := [OpGet "missing"; OpSet (mkEntry "k" "v" 0 ""); OpGet "k";
              OpDelete "exists"; OpGet "exists"; OpList] in
  (ttl v ≤ 0 ∧ IsZero (lastRefresh w) = false)
  ∧ remote (run_Ops v ops w) = remote w
  ∧ lastRefresh (run_Ops v ops w) = lastRefresh w.
Proof.
  intros v w ops.
  assert (ttl v ≤ 0 ∧ IsZero (lastRefresh w) = false) as Hquiet.
  { split; [vm_compute; discriminate | reflexivity]. }
  split; [exact Hquiet |].
  destruct (no_refresh_without_ttl v ops w (or_intror Hquiet))
    as (Hr & Hl & _).
  split; [exact Hr | exact Hl].
Defined.

Lemma New_namespace_fallback_witness :
  let s := mkStoreValue (St:=memoryState) (failStore errBroken) None in
  let opts' := [WithNamespace (Ext:=nat) "prod"; WithTTL 10] in
  (asNamespaced s = None ∧ Forall keeps_store opts')
  ∧ store (New (Memory_StoreValue (fst NewMemory))
               ([WithNamespace "qa"] ++ WithStore s :: opts'))
    = failStore errBroken.
Proof.
  intros s opts'.
  assert (Forall keeps_store opts') as Hkeep.
  { repeat constructor; by intros []. }
  split; [by split |].
  apply (New_namespace_fallback (Memory_StoreValue (fst NewMemory)) s
           [WithNamespace "qa"] opts' eq_refl Hkeep).
Defined.

Lemma Set_Get_roundtrip_witness :
  let v := young_vault in
  let w := World_init [100; 120]%positive in
  let entry := mkEntry "k" "v" 0 "" in
  store v = Memory_Store (fst NewMemory)
  ∧ fst (Get v "k" (snd (vault_Set v entry w)))
    = (mkEntry "k" "v" 100 "manual", None).
Proof.
  intros v w entry. split; [reflexivity |].
  destruct (Set_Get_roundtrip (fst NewMemory) v w entry eq_refl)
    as (_ & Hget & _).
  - right. vm_compute. discriminate.
  - exact Hget.
Defined.

Lemma Delete_Get_NotFound_witness :
  let v := vault_New (Ext:=nat) [] in
  let w := snd (vault_Set v (mkEntry "k" "v" 0 "")
                          (World_init [100%positive])) in
  (store v = Memory_Store (fst NewMemory) ∧ sources v = [])
  ∧ fst (Get v "k" w) = (mkEntry "k" "v" 100 "manual", None)
  ∧ fst (Get v "k" (snd (Delete v "k" w))) = (Entry_zero, Some ErrNotFound).
Proof.
  intros v w. split; [split; reflexivity |]. split; [reflexivity |].
  destruct (Delete_Get_NotFound (fst NewMemory) v w "k" eq_refl eq_refl)
    as [_ H].
  exact H.
Defined.

Lemma List_returns_stale_witness :
  let v := stale_vault in
  let w := throttled_world in
  let e := mkEntry "k" "old" 100 "manual" in
  (store v = Memory_Store (fst NewMemory)
   ∧ fst (Memory_Get (fst NewMemory) "k" (backing w)) = (e, None))
  ∧ fst (Get v "k" w) = (Entry_zero, Some ErrNotFound)
  ∧ e ∈ fst (fst (List v w)).
Proof.
  intros v w e. split; [split; reflexivity |]. split; [reflexivity |].
  destruct (List_returns_stale (fst NewMemory) v w "k" e eq_refl eq_refl)
    as [H _]; [by left | exact H].
Defined.

Lemma Get_resolves_from_last_source_witness :
  let v := overwrite_vault in
  let w := World_init [100%positive] in
  let A := counting_source [mkEntry "k" "from-A" 0 "A"] in
  let B := counting_source [mkEntry "k" "from-B" 7 "B"] in
  (store v = Memory_Store (fst NewMemory)
   ∧ fst (store_Get (store v) "k" (backing w))
     = (Entry_zero, Some ErrNotFound)
   ∧ sources v = [A; B])
  ∧ fst (Get v "k" w) = (mkEntry "k" "from-B" 100 "B", None)
  ∧ remote (snd (Get v "k" w)) = 2%nat.
Proof.
  intros v w A B. split; [repeat split |].
  pose (w1 := mkWorld (backing w) (remote w) (clock w) (ticks w)
                      (lastRefresh w)
                      (calls w ++ [CallGet "k" (Entry_zero, Some ErrNotFound)])).
  apply (Get_resolves_from_last_source (fst NewMemory) v "k" w Entry_zero
           (Some ErrNotFound) (backing w) w1 [A] B [] []
           (mkEntry "k" "from-B" 7 "B") eq_refl eq_refl).
  - left. split; reflexivity.
  - reflexivity.
  - reflexivity.
  - reflexivity.
  - reflexivity.
  - intros e' He'. by apply elem_of_nil in He'.
  - reflexivity.
Defined.

(** ** keychain *)

(** *** The stand-ins are lawful *)

Lemma mock_keyring_lawful : keyring_lawful mock_keyring.
Proof.
  split; simpl.
  - intros sv u k. by destruct (k !! (sv, u)).
  - intros sv u p k _. by rewrite lookup_insert_eq.
  - intros sv u p sv' u' k Hne. rewrite lookup_insert_ne by done.
    by destruct (k !! (sv', u')).
  - intros sv u k _. destruct (k !! (sv, u)) eqn:Hlook; simpl.
    + by rewrite lookup_delete_eq.
    + by rewrite Hlook.
  - intros sv u sv' u' k Hne. destruct (k !! (sv, u)); simpl; [| done].
    rewrite lookup_delete_ne by done. by destruct (k !! (sv', u')).
Qed.

Lemma String_app_nil_r (s : string) : s +:+ "" = s.
Proof.
  induction s as [|c s IH]; [done |].
  change (String c (s +:+ "") = String c s). by rewrite IH.
Qed.

Lemma String_app_assoc (a b c : string) : (a +:+ b) +:+ c = a +:+ (b +:+ c).
Proof.
  induction a as [|x a IH]; [done |].
  change (String x ((a +:+ b) +:+ c) = String x (a +:+ (b +:+ c))).
  by rewrite IH.
Qed.

Lemma unframes_frame (s cur tail : string) :
  unframes (frame s +:+ tail) cur
  = ((cur +:+ s) ::.) <$> unframes tail "".
Proof.
  revert cur. induction s as [|c s IH]; intros cur.
  - by rewrite String_app_nil_r.
  - change (unframes (frame (String c s) +:+ tail) cur)
      with (unframes (frame s +:+ tail) (cur +:+ String c "")).
    rewrite IH, String_app_assoc. reflexivity.
Qed.

Lemma unframes_frames (l : list string) : unframes (frames l) "" = Some l.
Proof.
  induction l as [|s l IH]; [done |].
  cbn [frames]. by rewrite unframes_frame, IH.
Qed.

Lemma length_tally (n : nat) : String.length (tally n) = n.
Proof.
  induction n as [|n IH]; [done |].
  change (S (String.length (tally n)) = S n). by rewrite IH.
Qed.

Lemma unframe_frame_Z (z : Z) : unframe_Z (frame_Z z) = z.
Proof.
  unfold frame_Z. destruct (Z.ltb_spec z 0).
  - change (- Z.of_nat (String.length (tally (Z.abs_nat z))) = z).
    rewrite length_tally. lia.
  - change (Z.of_nat (String.length (tally (Z.abs_nat z))) = z).
    rewrite length_tally. lia.
Qed.

Lemma toy_json_lawful : json_lawful toy_json.
Proof.
  split.
  - intros [k v t s] data H. cbn [Marshal_Entry toy_json] in H.
    injection H as <-. cbn [Unmarshal_Entry toy_json].
    change (unframes _ "") with (unframes (frames [k; v; frame_Z t; s]) "").
    rewrite unframes_frames. by rewrite unframe_frame_Z.
  - intros keys data H. cbn [Marshal_keys toy_json] in H.
    injection H as <-. cbn [Unmarshal_keys toy_json].
    by rewrite unframes_frames.
Qed.

Lemma tagged_json_text_lawful : json_text_lawful tagged_json.
Proof.
  split.
  - intros [k v t s] data _ _ _ H. cbn [Marshal_Entry tagged_json] in H.
    injection H as <-.
    change (Unmarshal_Entry tagged_json _)
      with (match unframes (frames [k; v; frame_Z t; s]) "" with
            | Some [k; v; t; s] => (mkEntry k v (unframe_Z t) s, None)
            | _ => (Entry_zero, Some errSyntax)
            end).
    rewrite unframes_frames. by rewrite unframe_frame_Z.
  - intros keys data _ H. cbn [Marshal_keys tagged_json] in H.
    injection H as <-.
    change (Unmarshal_keys tagged_json _)
      with (match unframes (frames keys) "" with
            | Some keys => (keys, None)
            | None => ([], Some errSyntax)
            end).
    by rewrite unframes_frames.
Qed.

(** *** The package over a lawful keyring and a lawful JSON *)

Section KeychainFacts.

Context {K : Type} (kr : Keyring K) (json : Json).
Hypothesis Hkr : keyring_lawful kr.
Hypothesis Hjson : json_lawful json.

Implicit Types (s : Keychain) (k : K).

Lemma keyring_Get_eq (sv u : string) k :
  keyring_Get kr sv u k = (fst (keyring_Get kr sv u k), k).
Proof.
  pose proof (Get_pure kr Hkr sv u k) as H.
  destruct (keyring_Get kr sv u k) as [r k']. simpl in *. by subst k'.
Qed.

(** [Get] reads one secret and changes nothing. *)
Lemma Keychain_Get_eq s (key : string) k :
  Keychain_Get kr json s key k
  = (match keyring_Get kr (service s) key k with
     | ((data, Some cause), _) =>
         if errors_Is (Some cause) keyring_ErrNotFound
         then (Entry_zero, Some ErrNotFound)
         else (Entry_zero, Some (Errorf "keychain: get %q: %w" [key] cause))
     | ((data, None), _) =>
         match Unmarshal_Entry json data with
         | (_, Some cause) =>
             (Entry_zero,
              Some (Errorf "keychain: unmarshal %q: %w" [key] cause))
         | (entry, None) => (entry, None)
         end
     end, k).
Proof.
  unfold Keychain_Get. krun. rewrite (keyring_Get_eq (service s) key k).
  destruct (fst (keyring_Get kr (service s) key k)) as [data [cause|]].
  - by destruct (errors_Is (Some cause) keyring_ErrNotFound).
  - by destruct (Unmarshal_Entry json data) as [entry [cause|]].
Qed.

Lemma Keychain_Get_same s (key : string) k k' :
  fst (keyring_Get kr (service s) key k')
  = fst (keyring_Get kr (service s) key k) →
  fst (Keychain_Get kr json s key k') = fst (Keychain_Get kr json s key k).
Proof.
  intros H. rewrite !Keychain_Get_eq.
  rewrite (keyring_Get_eq (service s) key k'),
          (keyring_Get_eq (service s) key k), H. done.
Qed.

Lemma readIndex_eq s k :
  readIndex kr json s k
  = (match keyring_Get kr (service s) indexKey k with
     | ((_, Some _), _) => []
     | ((data, None), _) => fst (Unmarshal_keys json data)
     end, k).
Proof.
  unfold readIndex. krun. rewrite (keyring_Get_eq (service s) indexKey k).
  by destruct (fst (keyring_Get kr (service s) indexKey k)) as [data [cause|]].
Qed.

Lemma readIndex_same s k k' :
  fst (keyring_Get kr (service s) indexKey k')
  = fst (keyring_Get kr (service s) indexKey k) →
  fst (readIndex kr json s k') = fst (readIndex kr json s k).
Proof.
  intros H. rewrite !readIndex_eq.
  rewrite (keyring_Get_eq (service s) indexKey k'),
          (keyring_Get_eq (service s) indexKey k), H. done.
Qed.

(** [writeIndex] touches the secret of the index and no other; when it
    returns nil, the index read back is the index written. *)
Lemma writeIndex_frame s (keys : list string) k (sv u : string) :
  (service s, indexKey) ≠ (sv, u) →
  fst (keyring_Get kr sv u (snd (writeIndex kr json s keys k)))
  = fst (keyring_Get kr sv u k).
Proof.
  intros Hne. unfold writeIndex.
  destruct (Marshal_keys json keys) as [data [cause|]]; krun; [done |].
  pose proof (Get_Set_other kr Hkr (service s) indexKey data sv u k Hne) as H.
  destruct (keyring_Set kr (service s) indexKey data k) as [[cause|] k'];
    simpl in *; done.
Qed.

Lemma writeIndex_read s (keys : list string) k :
  fst (writeIndex kr json s keys k) = None →
  fst (readIndex kr json s (snd (writeIndex kr json s keys k))) = keys.
Proof.
  unfold writeIndex.
  destruct (Marshal_keys json keys) as [data [cause|]] eqn:Hm; krun;
    [discriminate |].
  pose proof (Get_Set kr Hkr (service s) indexKey data k) as H.
  destruct (keyring_Set kr (service s) indexKey data k) as [[cause|] k'];
    simpl in *; [discriminate |].
  intros _. rewrite readIndex_eq. simpl.
  rewrite (keyring_Get_eq (service s) indexKey k'), (H eq_refl).
  by rewrite (keys_roundtrip json Hjson keys data Hm).
Qed.

Lemma indexed_elem_of (key : string) (keys : list string) :
  indexed key keys = true ↔ key ∈ keys.
Proof.
  induction keys as [|x keys IH]; simpl.
  - split; [discriminate | by intros ?%elem_of_nil].
  - rewrite elem_of_cons. destruct (decide (x = key)) as [-> | Hne].
    + split; [by left | done].
    + rewrite IH. split; [by right | by intros [-> | ?]].
Qed.

Lemma addToIndex_frame s (key : string) k (sv u : string) :
  (service s, indexKey) ≠ (sv, u) →
  fst (keyring_Get kr sv u (snd (addToIndex kr json s key k)))
  = fst (keyring_Get kr sv u k).
Proof.
  intros Hne. unfold addToIndex. krun. rewrite readIndex_eq.
  destruct (indexed key _); [done |]. by apply writeIndex_frame.
Qed.

Lemma addToIndex_read s (key : string) k :
  fst (addToIndex kr json s key k) = None →
  let keys := fst (readIndex kr json s k) in
  fst (readIndex kr json s (snd (addToIndex kr json s key k)))
  = if indexed key keys then keys else keys ++ [key].
Proof.
  unfold addToIndex. krun. rewrite readIndex_eq. cbn [fst].
  destruct (indexed key _) eqn:Hin.
  - intros _. cbn [snd]. by rewrite readIndex_eq.
  - apply writeIndex_read.
Qed.

Lemma removeFromIndex_frame s (key : string) k (sv u : string) :
  (service s, indexKey) ≠ (sv, u) →
  fst (keyring_Get kr sv u (snd (removeFromIndex kr json s key k)))
  = fst (keyring_Get kr sv u k).
Proof.
  intros Hne. unfold removeFromIndex. krun. rewrite readIndex_eq.
  by apply writeIndex_frame.
Qed.

Lemma removeFromIndex_read s (key : string) k :
  fst (removeFromIndex kr json s key k) = None →
  fst (readIndex kr json s (snd (removeFromIndex kr json s key k)))
  = filter (λ x, x ≠ key) (fst (readIndex kr json s k)).
Proof.
  unfold removeFromIndex. krun. rewrite readIndex_eq. cbn [fst].
  apply writeIndex_read.
Qed.

(** [Set] and [Delete] touch secrets of their own service only. *)
Lemma Keychain_Set_frame s (entry : Entry) k (sv u : string) :
  sv ≠ service s →
  fst (keyring_Get kr sv u (snd (Keychain_Set kr json s entry k)))
  = fst (keyring_Get kr sv u k).
Proof.
  intros Hne. unfold Keychain_Set.
  destruct (Marshal_Entry json entry) as [data [cause|]]; krun; [done |].
  pose proof (Get_Set_other kr Hkr (service s) (Key entry) data sv u k) as H.
  destruct (keyring_Set kr (service s) (Key entry) data k) as [[cause|] k1];
    cbn [fst snd] in *.
  - apply H. congruence.
  - rewrite addToIndex_frame by congruence. apply H. congruence.
Qed.

Lemma Keychain_Delete_frame s (key : string) k (sv u : string) :
  sv ≠ service s →
  fst (keyring_Get kr sv u (snd (Keychain_Delete kr json s key k)))
  = fst (keyring_Get kr sv u k).
Proof.
  intros Hne. unfold Keychain_Delete. krun.
  pose proof (Get_Delete_other kr Hkr (service s) key sv u k) as H.
  destruct (keyring_Delete kr (service s) key k) as [[cause|] k1];
    cbn [fst snd] in *.
  - destruct (errors_Is (Some cause) keyring_ErrNotFound); cbn [fst snd].
    + rewrite removeFromIndex_frame by congruence. apply H. congruence.
    + apply H. congruence.
  - rewrite removeFromIndex_frame by congruence. apply H. congruence.
Qed.


(** The loop of [List] over keys none of which fails other than by
    [ErrNotFound]. *)
Lemma Keychain_List_loop_ok s (keys : list string) (acc : list Entry) k :
  (∀ key, key ∈ keys →
     snd (fst (Keychain_Get kr json s key k)) = None
     ∨ errors_Is (snd (fst (Keychain_Get kr json s key k))) ErrNotFound
       = true) →
  Keychain_List_loop kr json s keys acc k
  = ((acc ++ omap (Keychain_found kr json s k) keys, None), k).
Proof.
  revert acc. induction keys as [|key keys IH]; intros acc Hok.
  { simpl. by rewrite app_nil_r. }
  cbn [Keychain_List_loop]. krun.
  pose proof (Hok key ltac:(apply elem_of_cons; by left)) as Hkey.
  assert (∀ x, x ∈ keys →
            snd (fst (Keychain_Get kr json s x k)) = None
            ∨ errors_Is (snd (fst (Keychain_Get kr json s x k))) ErrNotFound
              = true) as Hrest.
  { intros x Hx. apply Hok. apply elem_of_cons. by right. }
  cbn [omap list_omap]. unfold Keychain_found at 1.
  pose proof (f_equal snd (Keychain_Get_eq s key k)) as Hpure.
  destruct (Keychain_Get kr json s key k) as [[e err] k1].
  cbn [fst snd] in *. subst k1.
  destruct (errors_Is err ErrNotFound) eqn:His.
  - destruct err as [x|]; [| discriminate]. by apply IH.
  - destruct Hkey as [-> | Hbad]; [| congruence].
    rewrite (IH (acc ++ [e]) Hrest), <- app_assoc. done.
Qed.

Lemma Keychain_List_loop_fail s (pre post : list string) (key : string)
    (acc : list Entry) k (err : error) :
  (∀ x, x ∈ pre →
     snd (fst (Keychain_Get kr json s x k)) = None
     ∨ errors_Is (snd (fst (Keychain_Get kr json s x k))) ErrNotFound
       = true) →
  snd (fst (Keychain_Get kr json s key k)) = Some err →
  errors_Is (Some err) ErrNotFound = false →
  Keychain_List_loop kr json s (pre ++ key :: post) acc k
  = (([], Some err), k).
Proof.
  revert acc. induction pre as [|x pre IH]; intros acc Hok Herr Hbad.
  - cbn [app Keychain_List_loop]. krun.
    pose proof (f_equal snd (Keychain_Get_eq s key k)) as Hpure.
    destruct (Keychain_Get kr json s key k) as [[e err'] k1].
    cbn [fst snd] in *. subst k1 err'. by rewrite Hbad.
  - cbn [app Keychain_List_loop]. krun.
    pose proof (Hok x ltac:(apply elem_of_cons; by left)) as Hx.
    assert (∀ y, y ∈ pre →
              snd (fst (Keychain_Get kr json s y k)) = None
              ∨ errors_Is (snd (fst (Keychain_Get kr json s y k)))
                  ErrNotFound = true) as Hrest.
    { intros y Hy. apply Hok. apply elem_of_cons. by right. }
    pose proof (f_equal snd (Keychain_Get_eq s x k)) as Hpure.
    destruct (Keychain_Get kr json s x k) as [[e err'] k1].
    cbn [fst snd] in *. subst k1.
    destruct (errors_Is err' ErrNotFound) eqn:His.
    + by apply IH.
    + destruct Hx as [-> | ?]; [| congruence]. by apply IH.
Qed.

(** X20. [List] goes through the index in its order. When no indexed key
    fails other than by [ErrNotFound], it returns the entries of the keys
    [Get] finds and skips the keys [Get] does not find (an index that is
    stale). At the first indexed key whose [Get] fails otherwise, it
    returns that error and no entry. It changes nothing. *)
Theorem Keychain_List_skips_stale s k :
  let keys := fst (readIndex kr json s k) in
  let fine key :=
    snd (fst (Keychain_Get kr json s key k)) = None
    ∨ errors_Is (snd (fst (Keychain_Get kr json s key k))) ErrNotFound
      = true in
  ((∀ key, key ∈ keys → fine key) →
   Keychain_List kr json s k
   = ((omap (Keychain_found kr json s k) keys, None), k))
  ∧ (∀ pre key post err,
       keys = pre ++ key :: post →
       (∀ x, x ∈ pre → fine x) →
       snd (fst (Keychain_Get kr json s key k)) = Some err →
       errors_Is (Some err) ErrNotFound = false →
       Keychain_List kr json s k = (([], Some err), k)).
Proof.
  intros keys fine. subst keys fine. unfold Keychain_List. krun.
  rewrite readIndex_eq. cbn [fst]. split.
  - intros Hok. by rewrite (Keychain_List_loop_ok s _ [] k Hok).
  - intros pre key post err -> Hok Herr Hbad.
    by apply Keychain_List_loop_fail.
Qed.

Lemma Keychain_List_loop_same s (keys : list string) (acc : list Entry)
    k k' :
  (∀ u, fst (keyring_Get kr (service s) u k')
        = fst (keyring_Get kr (service s) u k)) →
  fst (Keychain_List_loop kr json s keys acc k')
  = fst (Keychain_List_loop kr json s keys acc k).
Proof.
  intros Hsame. revert acc.
  induction keys as [|key keys IH]; intros acc; [done |].
  cbn [Keychain_List_loop]. krun.
  pose proof (Keychain_Get_same s key k k' (Hsame key)) as Hget.
  pose proof (f_equal snd (Keychain_Get_eq s key k)) as Hp.
  pose proof (f_equal snd (Keychain_Get_eq s key k')) as Hp'.
  destruct (Keychain_Get kr json s key k) as [[e err] k1].
  destruct (Keychain_Get kr json s key k') as [[e' err'] k1'].
  cbn [fst snd] in *. subst k1 k1'. injection Hget as -> ->.
  destruct (errors_Is err ErrNotFound); [apply IH |].
  destruct err; [done | apply IH].
Qed.

Lemma Keychain_List_same s k k' :
  (∀ u, fst (keyring_Get kr (service s) u k')
        = fst (keyring_Get kr (service s) u k)) →
  fst (Keychain_List kr json s k') = fst (Keychain_List kr json s k).
Proof.
  intros Hsame. unfold Keychain_List. krun. rewrite !readIndex_eq.
  rewrite (keyring_Get_eq (service s) indexKey k'),
          (keyring_Get_eq (service s) indexKey k), (Hsame indexKey).
  by apply Keychain_List_loop_same.
Qed.

(** Two handles on different services do not see each other. *)
Lemma Keychain_service_isolation (a b : Keychain) (entry : Entry)
    (key key' : string) k :
  service a ≠ service b →
  let set := snd (Keychain_Set kr json a entry k) in
  let deleted := snd (Keychain_Delete kr json a key k) in
  fst (Keychain_Get kr json b key' set) = fst (Keychain_Get kr json b key' k)
  ∧ fst (Keychain_Get kr json b key' deleted)
    = fst (Keychain_Get kr json b key' k)
  ∧ fst (Keychain_List kr json b set) = fst (Keychain_List kr json b k)
  ∧ fst (Keychain_List kr json b deleted) = fst (Keychain_List kr json b k).
Proof.
  intros Hne set deleted. subst set deleted. repeat split.
  - apply Keychain_Get_same. by apply Keychain_Set_frame.
  - apply Keychain_Get_same. by apply Keychain_Delete_frame.
  - apply Keychain_List_same. intros u. by apply Keychain_Set_frame.
  - apply Keychain_List_same. intros u. by apply Keychain_Delete_frame.
Qed.

(** X21. Over a lawful keyring, the views of a keychain store for two
    different namespaces are isolated for every key, keys with a
    separator and the reserved key of the index included: a [Set] or a
    [Delete] through one changes neither what [Get] returns through the
    other nor what [List] returns through it. The same holds between a
    view and the store it was made from. *)
Theorem Keychain_namespace_isolation s (A B : string) (entry : Entry)
    (key key' : string) k :
  A ≠ B →
  let a := Keychain_WithNamespace s A in
  let b := Keychain_WithNamespace s B in
  let set := snd (Keychain_Set kr json a entry k) in
  let deleted := snd (Keychain_Delete kr json a key k) in
  (fst (Keychain_Get kr json b key' set) = fst (Keychain_Get kr json b key' k)
   ∧ fst (Keychain_Get kr json b key' deleted)
     = fst (Keychain_Get kr json b key' k)
   ∧ fst (Keychain_List kr json b set) = fst (Keychain_List kr json b k)
   ∧ fst (Keychain_List kr json b deleted) = fst (Keychain_List kr json b k))
  ∧ (fst (Keychain_Get kr json s key' set)
     = fst (Keychain_Get kr json s key' k)
     ∧ fst (Keychain_Get kr json s key' deleted)
       = fst (Keychain_Get kr json s key' k)
     ∧ fst (Keychain_List kr json s set) = fst (Keychain_List kr json s k)
     ∧ fst (Keychain_List kr json s deleted)
       = fst (Keychain_List kr json s k)).
Proof.
  intros Hne a b set deleted. split.
  - apply Keychain_service_isolation. simpl. intros H.
    apply (inj (String.append (service s +:+ "/"))) in H. by apply Hne.
  - apply Keychain_service_isolation. simpl. intros H.
    apply (f_equal String.length) in H.
    rewrite (String_length_app (service s +:+ "/") A),
            (String_length_app (service s) "/") in H.
    simpl in H. lia.
Qed.

End KeychainFacts.

(** *** The package over a lawful keyring and JSON as it treats text *)

Section KeychainTextFacts.

Context {K : Type} (kr : Keyring K) (json : Json).
Hypothesis Hkr : keyring_lawful kr.
Hypothesis Htext : json_text_lawful json.

Implicit Types (s : Keychain) (k : K).

(** When [writeIndex] returns nil for keys that are valid UTF-8, the
    index read back is the index written. *)
Lemma writeIndex_read_text s (keys : list string) k :
  Forall (λ key, utf8_ValidString key = true) keys →
  fst (writeIndex kr json s keys k) = None →
  fst (readIndex kr json s (snd (writeIndex kr json s keys k))) = keys.
Proof.
  intros Hvalid. unfold writeIndex.
  destruct (Marshal_keys json keys) as [data [cause|]] eqn:Hm; krun;
    [discriminate |].
  pose proof (Get_Set kr Hkr (service s) indexKey data k) as H.
  destruct (keyring_Set kr (service s) indexKey data k) as [[cause|] k'];
    simpl in *; [discriminate |].
  intros _. rewrite (readIndex_eq kr json Hkr). simpl.
  rewrite (keyring_Get_eq kr Hkr (service s) indexKey k'), (H eq_refl).
  by rewrite (keys_text_roundtrip json Htext keys data Hvalid Hm).
Qed.

Lemma addToIndex_read_text s (key : string) k :
  utf8_ValidString key = true →
  Forall (λ x, utf8_ValidString x = true) (fst (readIndex kr json s k)) →
  fst (addToIndex kr json s key k) = None →
  let keys := fst (readIndex kr json s k) in
  fst (readIndex kr json s (snd (addToIndex kr json s key k)))
  = if indexed key keys then keys else keys ++ [key].
Proof.
  intros Hkey Hkeys. revert Hkeys.
  unfold addToIndex. krun. rewrite (readIndex_eq kr json Hkr). cbn [fst].
  destruct (indexed key _) eqn:Hin.
  - intros _ _. cbn [snd]. by rewrite (readIndex_eq kr json Hkr).
  - intros Hkeys. apply writeIndex_read_text.
    apply Forall_app. split; [done |]. by apply Forall_singleton.
Qed.

(** X17. Over a lawful keyring, and JSON as it treats text, an entry
    whose key, value and source are valid UTF-8, whose key is not the
    reserved key of the index and whose [Set] returned nil is what [Get]
    of its key returns next. (An entry with other bytes in these strings
    is not: [json.Marshal] writes U+FFFD in their place.) *)
Theorem Keychain_Set_Get s (entry : Entry) k :
  utf8_ValidString (Key entry) = true →
  utf8_ValidString (Value entry) = true →
  utf8_ValidString (Source entry) = true →
  Key entry ≠ indexKey →
  fst (Keychain_Set kr json s entry k) = None →
  fst (Keychain_Get kr json s (Key entry)
         (snd (Keychain_Set kr json s entry k)))
  = (entry, None).
Proof.
  intros Hk Hv Hs Hkey. unfold Keychain_Set.
  destruct (Marshal_Entry json entry) as [data [cause|]] eqn:Hm; krun;
    [discriminate |].
  pose proof (Get_Set kr Hkr (service s) (Key entry) data k) as Hgs.
  destruct (keyring_Set kr (service s) (Key entry) data k) as [[cause|] k1];
    cbn [fst snd] in *; [discriminate |].
  intros _.
  rewrite (Keychain_Get_same kr json Hkr s (Key entry) k1).
  - rewrite (Keychain_Get_eq kr json Hkr),
            (keyring_Get_eq kr Hkr (service s) (Key entry) k1).
    rewrite (Hgs eq_refl). cbn [fst].
    by rewrite (Entry_text_roundtrip json Htext entry data Hk Hv Hs Hm).
  - apply (addToIndex_frame kr json Hkr). intros [= H]. by apply Hkey.
Qed.

(** X18. A [Set] that returned nil, of an entry whose key is valid UTF-8
    and not the reserved key of the index, over an index whose keys are
    valid UTF-8 (as all keys that [json.Unmarshal] has decoded are), has
    the key in the index once more only if it was not there: the index
    is as before when it held the key, and as before with the key at its
    end otherwise. So the key is in the index after the call, and an
    index with no key twice stays so. An index that could not be read
    counts as empty. *)
Theorem Keychain_Set_index s (entry : Entry) k :
  utf8_ValidString (Key entry) = true →
  Forall (λ x, utf8_ValidString x = true) (fst (readIndex kr json s k)) →
  Key entry ≠ indexKey →
  fst (Keychain_Set kr json s entry k) = None →
  let keys := fst (readIndex kr json s k) in
  let keys' := fst (readIndex kr json s
                      (snd (Keychain_Set kr json s entry k))) in
  keys' = (if indexed (Key entry) keys then keys else keys ++ [Key entry])
  ∧ Key entry ∈ keys'
  ∧ (NoDup keys → NoDup keys').
Proof.
  intros Hvalid Hkeys Hkey Hok keys keys'.
  assert (keys' = if indexed (Key entry) keys then keys
                  else keys ++ [Key entry]) as Heq.
  { subst keys keys'. revert Hok. unfold Keychain_Set.
    destruct (Marshal_Entry json entry) as [data [cause|]] eqn:Hm; krun;
      [discriminate |].
    pose proof (Get_Set_other kr Hkr (service s) (Key entry) data
                  (service s) indexKey k) as Hother.
    destruct (keyring_Set kr (service s) (Key entry) data k)
      as [[cause|] k1]; cbn [fst snd] in *; [discriminate |].
    assert (fst (readIndex kr json s k1) = fst (readIndex kr json s k))
      as Hsame.
    { apply (readIndex_same kr json Hkr). apply Hother.
      intros [= H]. by apply Hkey. }
    intros Hadd. rewrite (addToIndex_read_text s (Key entry) k1 Hvalid).
    - by rewrite Hsame.
    - by rewrite Hsame.
    - done. }
  split; [done |]. rewrite Heq.
  destruct (indexed (Key entry) keys) eqn:Hin.
  - split; [by apply indexed_elem_of | done].
  - split; [apply elem_of_app; right; by apply list_elem_of_singleton |].
    intros Hnd. apply NoDup_app. split; [done |]. split.
    + intros x Hx ->%list_elem_of_singleton.
      apply indexed_elem_of in Hx. congruence.
    + apply NoDup_singleton.
Qed.

(** X22. The reserved key of the index is not guarded. [Set] of an entry
    under that key writes the text of the entry where the index is kept
    and then adds the key to the index it reads there. With JSON, where
    the text of an entry decodes to no list of keys and the text of a
    list of keys to no entry, a [Set] that returns nil therefore leaves
    the index holding the reserved key alone, so every key indexed before
    is gone from it; the entry itself is overwritten by the text of that
    index, and both [Get] of the reserved key and [List] fail, with the
    error of decoding that text as an entry. *)
Theorem Keychain_Set_reserved_key s (entry junk : Entry) k
    (data idx : string) (cause : error) :
  Key entry = indexKey →
  Marshal_Entry json entry = (data, None) →
  fst (Unmarshal_keys json data) = [] →
  Marshal_keys json [indexKey] = (idx, None) →
  Unmarshal_keys json idx = ([indexKey], None) →
  Unmarshal_Entry json idx = (junk, Some cause) →
  errors_Is (Some cause) ErrNotFound = false →
  fst (Keychain_Set kr json s entry k) = None →
  let k' := snd (Keychain_Set kr json s entry k) in
  let err := Errorf "keychain: unmarshal %q: %w" [indexKey] cause in
  fst (readIndex kr json s k') = [indexKey]
  ∧ (∀ key, key ≠ indexKey → key ∉ fst (readIndex kr json s k'))
  ∧ fst (keyring_Get kr (service s) indexKey k') = (idx, None)
  ∧ fst (Keychain_Get kr json s indexKey k') = (Entry_zero, Some err)
  ∧ fst (Keychain_List kr json s k') = ([], Some err).
Proof.
  intros Hkey Hm Hnone Hidx Hback Hjunk Hcause.
  unfold Keychain_Set. rewrite Hm, Hkey. krun.
  pose proof (Get_Set kr Hkr (service s) indexKey data k) as Hgs.
  destruct (keyring_Set kr (service s) indexKey data k) as [[c|] k1];
    cbn [fst snd] in *; [discriminate |].
  specialize (Hgs eq_refl).
  unfold addToIndex. krun. rewrite (readIndex_eq kr json Hkr).
  rewrite (keyring_Get_eq kr Hkr (service s) indexKey k1), Hgs, Hnone.
  cbn [indexed app]. unfold writeIndex. rewrite Hidx. krun.
  pose proof (Get_Set kr Hkr (service s) indexKey idx k1) as Hgs2.
  destruct (keyring_Set kr (service s) indexKey idx k1) as [[c|] k2];
    cbn [fst snd] in *; [discriminate |].
  specialize (Hgs2 eq_refl). intros _.
  assert (fst (readIndex kr json s k2) = [indexKey]) as Hread.
  { rewrite (readIndex_eq kr json Hkr).
    by rewrite (keyring_Get_eq kr Hkr (service s) indexKey k2), Hgs2, Hback. }
  assert (fst (Keychain_Get kr json s indexKey k2)
          = (Entry_zero,
             Some (Errorf "keychain: unmarshal %q: %w" [indexKey] cause)))
    as Hget.
  { rewrite (Keychain_Get_eq kr json Hkr).
    by rewrite (keyring_Get_eq kr Hkr (service s) indexKey k2), Hgs2, Hjunk. }
  split; [done |]. split.
  { intros key Hne. rewrite Hread. by intros ->%list_elem_of_singleton. }
  split; [done |]. split; [done |].
  unfold Keychain_List. krun. rewrite (readIndex_eq kr json Hkr).
  rewrite (keyring_Get_eq kr Hkr (service s) indexKey k2), Hgs2, Hback.
  cbn [fst].
  pose proof (Keychain_List_loop_fail kr json Hkr s [] [] indexKey [] k2
                (Errorf "keychain: unmarshal %q: %w" [indexKey] cause))
    as Hfail.
  cbn [app] in Hfail. rewrite Hfail; [done | | |].
  - intros x Hx. by apply elem_of_nil in Hx.
  - by rewrite Hget.
  - unfold errors_Is in *. cbn [unwraps_to]. by rewrite decide_False.
Qed.

End KeychainTextFacts.

(** *** The package, run on the stand-ins *)

Lemma Keychain_Set_Get_witness :
  let entry := mkEntry "secret" "hunter2" 5 "manual" in
  let set := Keychain_Set mock_keyring tagged_json test_keychain entry ∅ in
  (utf8_ValidString (Key entry) = true
   ∧ utf8_ValidString (Value entry) = true
   ∧ utf8_ValidString (Source entry) = true
   ∧ Key entry ≠ indexKey ∧ fst set = None)
  ∧ fst (Keychain_Get mock_keyring tagged_json test_keychain "secret"
           (snd set))
    = (entry, None).
Proof.
  intros entry set.
  assert (Key entry ≠ indexKey) as Hkey by discriminate.
  assert (fst set = None) as Hok by (vm_compute; reflexivity).
  split; [by repeat split |].
  exact (Keychain_Set_Get mock_keyring tagged_json mock_keyring_lawful
           tagged_json_text_lawful test_keychain entry ∅
           eq_refl eq_refl eq_refl Hkey Hok).
Defined.

Lemma Keychain_Set_index_witness :
  let s := test_keychain in
  let k1 := snd (Keychain_Set mock_keyring tagged_json s
                   (mkEntry "k" "v1" 5 "manual") ∅) in
  let entry := mkEntry "k" "v2" 6 "manual" in
  let fresh := mkEntry "j" "v3" 6 "manual" in
  let k2 := snd (Keychain_Set mock_keyring tagged_json s entry k1) in
  let k3 := snd (Keychain_Set mock_keyring tagged_json s fresh k1) in
  (utf8_ValidString (Key entry) = true
   ∧ Forall (λ x, utf8_ValidString x = true)
            (fst (readIndex mock_keyring tagged_json s k1))
   ∧ Key entry ≠ indexKey
   ∧ fst (Keychain_Set mock_keyring tagged_json s entry k1) = None)
  ∧ fst (readIndex mock_keyring tagged_json s k1) = ["k"]
  ∧ fst (readIndex mock_keyring tagged_json s k2) = ["k"]
  ∧ fst (readIndex mock_keyring tagged_json s k3) = ["k"; "j"].
Proof.
  intros s k1 entry fresh k2 k3.
  assert (Key entry ≠ indexKey) as Hkey by discriminate.
  assert (fst (Keychain_Set mock_keyring tagged_json s entry k1) = None)
    as Hok by (vm_compute; reflexivity).
  assert (fst (readIndex mock_keyring tagged_json s k1) = ["k"]) as Hidx
    by (vm_compute; reflexivity).
  assert (Forall (λ x, utf8_ValidString x = true)
                 (fst (readIndex mock_keyring tagged_json s k1))) as Hvalid.
  { rewrite Hidx. by apply Forall_singleton. }
  split; [by repeat split |]. split; [exact Hidx |].
  destruct (Keychain_Set_index mock_keyring tagged_json mock_keyring_lawful
              tagged_json_text_lawful s entry k1 eq_refl Hvalid Hkey Hok)
    as [Heq _].
  fold k2 in Heq. rewrite Heq, Hidx. split; [reflexivity |].
  vm_compute. reflexivity.
Defined.


Lemma Keychain_List_skips_stale_witness :
  let s := test_keychain in
  let k := stale_index_keyring in
  fst (readIndex mock_keyring toy_json s k) = ["a"; "b"]
  ∧ fst (Keychain_Get mock_keyring toy_json s "a" k)
    = (Entry_zero, Some ErrNotFound)
  ∧ fst (Keychain_List mock_keyring toy_json s k)
    = ([mkEntry "b" "2" 7 "seed"], None).
Proof.
  intros s k.
  assert (fst (readIndex mock_keyring toy_json s k) = ["a"; "b"]) as Hidx
    by (vm_compute; reflexivity).
  split; [exact Hidx |]. split; [vm_compute; reflexivity |].
  destruct (Keychain_List_skips_stale mock_keyring toy_json
              mock_keyring_lawful s k) as [Hfine _].
  rewrite Hfine.
  - vm_compute. reflexivity.
  - rewrite Hidx. intros key Hin.
    apply elem_of_cons in Hin as [-> | Hin].
    { right. vm_compute. reflexivity. }
    apply elem_of_cons in Hin as [-> | Hin].
    { left. vm_compute. reflexivity. }
    by apply elem_of_nil in Hin.
Defined.

Lemma Keychain_namespace_isolation_witness :
  let s := test_keychain in
  let prod := Keychain_WithNamespace s "prod" in
  let qa := Keychain_WithNamespace s "qa" in
  let k := snd (Keychain_Set mock_keyring toy_json qa
                  (mkEntry "db" "qa-host" 7 "seed") ∅) in
  let k' := snd (Keychain_Set mock_keyring toy_json prod
                   (mkEntry "db" "prod-host" 7 "seed") k) in
  "prod" ≠ "qa"
  ∧ fst (Keychain_Get mock_keyring toy_json qa "db" k')
    = fst (Keychain_Get mock_keyring toy_json qa "db" k).
Proof.
  intros s prod qa k k'.
  assert ("prod" ≠ "qa") as Hne by discriminate.
  split; [exact Hne |].
  destruct (Keychain_namespace_isolation mock_keyring toy_json
              mock_keyring_lawful s "prod" "qa"
              (mkEntry "db" "prod-host" 7 "seed") "db" "db" k Hne)
    as [[H _] _].
  exact H.
Defined.

Lemma Keychain_Set_reserved_key_witness :
  let s := test_keychain in
  let k := snd (Keychain_Set mock_keyring tagged_json s
                  (mkEntry "a" "1" 7 "seed") ∅) in
  let entry := mkEntry indexKey "v" 7 "seed" in
  let data := fst (Marshal_Entry tagged_json entry) in
  let idx := fst (Marshal_keys tagged_json [indexKey]) in
  let k' := snd (Keychain_Set mock_keyring tagged_json s entry k) in
  let err := Errorf "keychain: unmarshal %q: %w" [indexKey] errArray in
  (Key entry = indexKey
   ∧ Marshal_Entry tagged_json entry = (data, None)
   ∧ fst (Unmarshal_keys tagged_json data) = []
   ∧ Marshal_keys tagged_json [indexKey] = (idx, None)
   ∧ Unmarshal_keys tagged_json idx = ([indexKey], None)
   ∧ Unmarshal_Entry tagged_json idx = (Entry_zero, Some errArray)
   ∧ errors_Is (Some errArray) ErrNotFound = false
   ∧ fst (Keychain_Set mock_keyring tagged_json s entry k) = None)
  ∧ fst (readIndex mock_keyring tagged_json s k) = ["a"]
  ∧ fst (Keychain_Get mock_keyring tagged_json s "a" k)
    = (mkEntry "a" "1" 7 "seed", None)
  ∧ ("a" ∉ fst (readIndex mock_keyring tagged_json s k'))
  ∧ fst (Keychain_Get mock_keyring tagged_json s indexKey k')
    = (Entry_zero, Some err)
  ∧ fst (Keychain_List mock_keyring tagged_json s k') = ([], Some err).
Proof.
  intros s k entry data idx k' err.
  assert (fst (Keychain_Set mock_keyring tagged_json s entry k) = None)
    as Hok by (vm_compute; reflexivity).
  split; [by repeat split |].
  split; [vm_compute; reflexivity |]. split; [vm_compute; reflexivity |].
  destruct (Keychain_Set_reserved_key mock_keyring tagged_json
              mock_keyring_lawful s entry Entry_zero k data idx errArray
              eq_refl eq_refl eq_refl eq_refl eq_refl eq_refl eq_refl Hok)
    as (_ & Hgone & _ & Hget & Hlist).
  split; [apply Hgone; discriminate |]. split; [exact Hget | exact Hlist].
Defined.
